(** * justrun: the watch set builder, the digest engine and the dispatch loop

    A shallow embedding of [watch.go] (package main of justrun) together
    with the properties of its specification.

    Conventions of the embedding:
    - a Go [string] is a [string] (a sequence of bytes);
    - a Go [[]byte] that may be [nil] is an [option (list byte)];
    - a Go [error] is an [option string]: [None] is [nil], [Some msg]
      carries the text of the error;
    - a Go [map[string]T] is a [gmap string T]; reading a missing key of a
      [map[string]bool] gives [false];
    - the operating system and the libraries the code calls (the working
      directory, the file system, fsnotify, SHA-256, the order of [range])
      are the fields of a record [Env], never fixed by the development;
      the clock is read once per round of the dispatch loop. *)

From Stdlib Require Import ZArith Lia Ascii String List.
From Stdlib Require Strings.Byte.
From stdpp Require Import base option list gmap strings sorting.

Local Open Scope Z_scope.

(** ** Go's [strings] package (the functions the program uses) *)
Module strings.

(** [strings.HasPrefix(s, prefix)]. *)
Fixpoint HasPrefix (s prefix : string) {struct prefix} : bool :=
  match prefix, s with
  | EmptyString, _ => true
  | String c prefix', String d s' =>
      if decide (c = d) then HasPrefix s' prefix' else false
  | String _ _, EmptyString => false
  end.

(** [strings.HasSuffix(s, suffix)]. *)
Definition HasSuffix (s suffix : string) : bool :=
  HasPrefix (String.rev s) (String.rev suffix).

End strings.

(** ** Go's [path/filepath] package on Unix

    [Clean] applies the four rules of its documentation: multiple
    separators become one, [.] elements disappear, an inner [..] removes
    the element before it, and a [..] at the root disappears.  The Go
    code walks the bytes with a write index; here the path is cut into
    its elements, which are pushed on a stack. *)
Module filepath.

Definition Separator : ascii := "/"%char.

Definition IsPathSeparator (c : ascii) : bool := bool_decide (c = Separator).

(** [filepath.IsAbs]: on Unix, the path starts with a separator. *)
Definition IsAbs (path : string) : bool :=
  match path with
  | String c _ => IsPathSeparator c
  | EmptyString => false
  end.

(** The elements of a path: the pieces between separators. *)
Fixpoint split (path : string) : list string :=
  match path with
  | EmptyString => [EmptyString]
  | String c rest =>
      if IsPathSeparator c then EmptyString :: split rest
      else match split rest with
           | e :: es => String c e :: es
           | [] => [String c EmptyString]
           end
  end.

(** [strings.Join(elems, "/")]. *)
Fixpoint join (elems : list string) : string :=
  match elems with
  | [] => EmptyString
  | [e] => e
  | e :: es => e +:+ String Separator (join es)
  end.

(** One pass over the elements; [out] is the stack of elements written
    so far, the last one first. *)
Fixpoint clean_elems (rooted : bool) (out : list string) (elems : list string)
  : list string :=
  match elems with
  | [] => out
  | e :: es =>
      if decide (e = "" ∨ e = ".") then clean_elems rooted out es
      else if decide (e = "..") then
        match out with
        | top :: out' =>
            if decide (top = "..") then clean_elems rooted (e :: out) es
            else clean_elems rooted out' es
        | [] =>
            if rooted then clean_elems rooted [] es
            else clean_elems rooted [e] es
        end
      else clean_elems rooted (e :: out) es
  end.

(** [filepath.Clean]. *)
Definition Clean (path : string) : string :=
  if decide (path = "") then "."
  else
    let rooted := IsAbs path in
    let out := join (rev (clean_elems rooted [] (split path))) in
    let res := if rooted then String Separator out else out in
    if decide (res = "") then "." else res.

(** [filepath.Join(a, b)]: empty elements are ignored, the rest is
    joined with the separator and cleaned. *)
Definition Join (a b : string) : string :=
  if decide (a = "") then
    if decide (b = "") then "" else Clean b
  else Clean (a +:+ String Separator b).

(** [filepath.Abs]; [getwd] is the result of [os.Getwd], [None] when it
    fails. *)
Definition Abs (getwd : option string) (path : string) : option string :=
  if IsAbs path then Some (Clean path)
  else match getwd with
       | Some wd => Some (Join wd path)
       | None => None
       end.

(** The path up to and including its last separator ([path[:i+1]] in
    [Dir]); empty when the path has no separator. *)
Fixpoint upto_last_separator (path : string) : string :=
  match path with
  | EmptyString => EmptyString
  | String c rest =>
      let r := upto_last_separator rest in
      if IsPathSeparator c then String c r
      else if decide (r = "") then "" else String c r
  end.

(** [filepath.Dir]. *)
Definition Dir (path : string) : string := Clean (upto_last_separator path).

(** [filepath.Base]. *)
Definition Base (path : string) : string :=
  if decide (path = "") then "."
  else
    match filter (λ e, e ≠ "") (split path) with
    | [] => String Separator ""
    | e :: es => List.last es e
    end.

End filepath.

(** ** The collaborators of the program *)

Abbreviation byte := Byte.byte.

(** What [os.Open], [File.Stat] and reading give for a path. *)
Inductive file :=
| OpenFails (err : string)
| StatFails (err : string)
| Directory
| Regular (content : list byte) (readErr : option string).
(* [Regular content readErr]: reading delivers [content] and then the end
   of the file, or the error [readErr] when there is one. *)

(** The watched-path map of [watch]: absolute path to fingerprint. *)
Abbreviation pathmap := (gmap string (option (list byte))).

Record Env := {
  (** [os.Getwd()]; [None] when there is no usable working directory *)
  Getwd : option string;
  (** [strings.TrimSpace] (Unicode aware in Go) *)
  TrimSpace : string → string;
  (** [sha256]: the sum of the bytes written to the hash *)
  Sum256 : list byte → list byte;
  (** the file system, as [digest] sees it *)
  Open : string → file;
  (** the error of [fsnotify.NewWatcher()], [None] when it succeeds *)
  NewWatcherErr : option string;
  (** the error of [w.Add(path)] given the paths added before *)
  AddErr : list string → string → option string;
  (** the order in which [range] walks the keys of a map *)
  Range : pathmap → list string;
}.

(** Go leaves the order of [range] over a map open; it visits every key
    once. *)
Definition range_ok (env : Env) : Prop :=
  ∀ m : pathmap, Range env m ≡ₚ (map_to_list m).*1.

(** Result of a Go function returning [(T, error)] with exactly one of
    the two set. *)
Inductive result (A : Type) :=
| Ok (a : A)
| Err (msg : string).
Arguments Ok {A} a.
Arguments Err {A} msg.

(** Reading a missing key of a [map[string]bool]. *)
Definition get (m : gmap string bool) (k : string) : bool := default false (m !! k).

(** [_, found := m[k]]. *)
Definition found (m : pathmap) (k : string) : bool := bool_decide (is_Some (m !! k)).

(** ** The digest engine *)

Definition maxHashedFileSize : N := 20 * 1024 * 1024.

(** Reading through [io.LimitReader(br, n)]: the bytes read and the
    bytes left in the file. *)
Fixpoint read_limited (n : N) (content : list byte) : list byte * list byte :=
  match content with
  | [] => ([], [])
  | b :: rest =>
      if (n =? 0)%N then ([], content)
      else let '(h, t) := read_limited (n - 1) rest in (b :: h, t)
  end.

Definition digest (env : Env) (path : string) : option (list byte) * option string :=
  match Open env path with
  | OpenFails err => (None, Some err)
  | StatFails err => (None, Some err)
  | Directory => (None, None)
  | Regular content readErr =>
      let '(hashed, rest) := read_limited maxHashedFileSize content in
      (* io.Copy ends at the limit, or where the file ends or fails *)
      let copyErr :=
        if (N.of_nat (length hashed) <? maxHashedFileSize)%N then readErr else None in
      match copyErr with
      | Some err => (None, Some err)
      | None =>
          match rest with
          | _ :: _ => (* too big *) (None, None)
          | [] => (Some (Sum256 env hashed), None)
          end
      end
  end.

(** ** The ignorers *)

(** The interface [Ignorer]. *)
Class Ignorer (T : Type) := IsIgnored : T → string → bool.

Record userIgnorer := {
  ignored : gmap string bool;
  ignoredDirs : list string;
}.

Record smartIgnorer := {
  includedHiddenFiles : gmap string bool;
  ui : userIgnorer;
  renameDirs : gmap string bool;
  renameChildren : gmap string bool;
}.

(** Modelled from the spec: the method [IsIgnored] of [userIgnorer] is not
    in [watch.go].  The spec: it returns true if the path's resolved
    absolute form is in the exact-match set, or starts with any recorded
    prefix. *)
Definition userIgnorer_IsIgnored (env : Env) (u : userIgnorer) (path : string) : bool :=
  match filepath.Abs (Getwd env) path with
  | Some full =>
      get (ignored u) full
      || existsb (λ dir, strings.HasPrefix full dir) (ignoredDirs u)
  | None => false
  end.

#[global] Instance userIgnorer_Ignorer (env : Env) : Ignorer userIgnorer :=
  userIgnorer_IsIgnored env.

(** An ignorer given by its decision function. *)
#[global] Instance fun_Ignorer : Ignorer (string → bool) := λ f, f.

Fixpoint createUserIgnorer_loop (env : Env) (ignoredPaths : list string)
    (ignored : gmap string bool) (ignoredDirs : list string) : result userIgnorer :=
  match ignoredPaths with
  | [] => Ok {| ignored := ignored; ignoredDirs := ignoredDirs |}
  | in_ :: rest =>
      let in_ := TrimSpace env in_ in
      if decide (String.length in_ = 0%nat) then
        createUserIgnorer_loop env rest ignored ignoredDirs
      else
        match filepath.Abs (Getwd env) in_ with
        | None => Err "unable to get current working dir while working with ignored paths"
        | Some path =>
            let ignored := <[path := true]> ignored in
            let dirPath :=
              if negb (strings.HasSuffix path "/") then path +:+ "/" else path in
            createUserIgnorer_loop env rest ignored (ignoredDirs ++ [dirPath])
        end
  end.

Definition createUserIgnorer (env : Env) (ignoredPaths : list string) : result userIgnorer :=
  createUserIgnorer_loop env ignoredPaths ∅ [].

(** ** The fsnotify watcher, as [watch] uses it *)

Record watcher := {
  added : list string;   (* the paths registered with [Add], oldest first *)
  closed : bool;         (* [Close] has been called *)
}.

Definition newWatcher : watcher := {| added := []; closed := false |}.

(** [w.Add(path)]: the new state of the watcher and the error. *)
Definition Add (env : Env) (w : watcher) (path : string) : watcher * option string :=
  match AddErr env (added w) path with
  | Some err => (w, Some err)
  | None => ({| added := added w ++ [path]; closed := closed w |}, None)
  end.

(** [w.Close()]. *)
Definition Close (w : watcher) : watcher := {| added := added w; closed := true |}.

(** ** The watch set builder *)

(** The first loop of [watch], over [inputPaths]; the state is the
    watcher and [userPaths]. *)
Fixpoint watch_inputs (env : Env) (ui : userIgnorer) (inputPaths : list string)
    (w : watcher) (userPaths : pathmap) : watcher * result pathmap :=
  match inputPaths with
  | [] => (w, Ok userPaths)
  | path :: rest =>
      match filepath.Abs (Getwd env) path with
      | None =>
          (Close w,
           Err "unable to get current working directory while working with user-watched paths")
      | Some fullPath =>
          if found userPaths fullPath || IsIgnored (Ignorer := userIgnorer_Ignorer env) ui path
          then watch_inputs env ui rest w userPaths
          else
            match Add env w fullPath with
            | (w, Some err) =>
                (Close w, Err ("unable to watch '" +:+ path +:+ "': " +:+ err))
            | (w, None) =>
                let d := (digest env fullPath).1 in
                watch_inputs env ui rest w (<[fullPath := d]> userPaths)
            end
      end
  end.

(** The three sets the second loop of [watch] fills. *)
Record renameState := {
  rs_includedHiddenFiles : gmap string bool;
  rs_renameDirs : gmap string bool;
  rs_renameChildren : gmap string bool;
}.

(** The second loop of [watch], over the keys of [userPaths] in the order
    [range] gives them. *)
Fixpoint watch_renames (env : Env) (userPaths : pathmap) (keys : list string)
    (w : watcher) (st : renameState) : watcher * result renameState :=
  match keys with
  | [] => (w, Ok st)
  | fullPath :: rest =>
      let baseName := filepath.Base fullPath in
      let includedHiddenFiles :=
        if strings.HasPrefix baseName "." then <[fullPath := true]> (rs_includedHiddenFiles st)
        else rs_includedHiddenFiles st in
      let dirPath := filepath.Dir fullPath in
      let foundDir := found userPaths dirPath in
      if negb foundDir && negb (bool_decide (dirPath = "")) then
        match (if negb (get (rs_renameDirs st) dirPath) then Add env w dirPath
               else (w, None)) with
        | (w, Some err) =>
            (Close w,
             Err ("unable to watch rename-watched-only dir '" +:+ fullPath +:+ "': " +:+ err))
        | (w, None) =>
            watch_renames env userPaths rest w
              {| rs_includedHiddenFiles := includedHiddenFiles;
                 rs_renameDirs := <[dirPath := true]> (rs_renameDirs st);
                 rs_renameChildren := <[fullPath := true]> (rs_renameChildren st) |}
        end
      else
        watch_renames env userPaths rest w
          {| rs_includedHiddenFiles := includedHiddenFiles;
             rs_renameDirs := rs_renameDirs st;
             rs_renameChildren := rs_renameChildren st |}
  end.

(** What a call of [watch] leaves behind: the values it returns, the
    watcher when one was created, and the ignorer of the dispatch task
    when [go listenForEvents(w, cmdCh, ig)] was reached. *)
Record outcome := {
  returned : result pathmap;
  watcher_state : option watcher;
  dispatch_task : option smartIgnorer;
}.

Definition watch (env : Env) (inputPaths ignoredPaths : list string) : outcome :=
  match createUserIgnorer env ignoredPaths with
  | Err msg => {| returned := Err msg; watcher_state := None; dispatch_task := None |}
  | Ok ui =>
      match NewWatcherErr env with
      | Some err =>
          {| returned := Err ("unable to create watcher: " +:+ err);
             watcher_state := None; dispatch_task := None |}
      | None =>
          match watch_inputs env ui inputPaths newWatcher ∅ with
          | (w, Err msg) =>
              {| returned := Err msg; watcher_state := Some w; dispatch_task := None |}
          | (w, Ok userPaths) =>
              match watch_renames env userPaths (Range env userPaths) w
                      {| rs_includedHiddenFiles := ∅; rs_renameDirs := ∅;
                         rs_renameChildren := ∅ |} with
              | (w, Err msg) =>
                  {| returned := Err msg; watcher_state := Some w; dispatch_task := None |}
              | (w, Ok st) =>
                  let ig := {| includedHiddenFiles := rs_includedHiddenFiles st;
                               ui := ui;
                               renameDirs := rs_renameDirs st;
                               renameChildren := rs_renameChildren st |} in
                  {| returned := Ok userPaths; watcher_state := Some w;
                     dispatch_task := Some ig |}
              end
          end
      end
  end.

(** ** The event dispatch loop *)

(** [fsnotify.Event]. *)
Record fsEvent := { Name : string; Op : N }.

(** The struct [event]: the embedded [time.Time] and the raw event. *)
Record event := { Time : Z; Event : fsEvent }.

(** What one [select] of the loop receives. *)
Inductive received :=
| EventsRecv (ev : fsEvent)            (* ev, ok := <-w.Events with ok *)
| EventsClosed                         (* ... with !ok *)
| ErrorsRecv (err : option string)     (* err, ok := <-w.Errors with ok *)
| ErrorsClosed.                        (* ... with !ok *)

(** One round of the loop: what [select] received and what [time.Now()]
    gives during that round. *)
Record round := { recv : received; now : Z }.

(** What the loop does to the outside. *)
Inductive action :=
| Send (e : event)                     (* cmdCh <- e *)
| CloseCmdCh                           (* close(cmdCh) *)
| LogUnignored (ev : fsEvent)          (* log.Printf("unignored file change: %s", ev) *)
| LogWatchError (err : string).        (* log.Println("watch error:", err) *)

Inductive status := Running | Returned.

(** The body of the [for] loop: the actions of one round, and whether the
    function has returned. *)
Definition listenForEvents_round `{Ignorer T} (verbose : bool) (ignorer : T)
    (r : round) : list action * status :=
  match recv r with
  | EventsClosed => ([], Returned)
  | EventsRecv ev =>
      if IsIgnored ignorer (Name ev) then ([], Running)
      else
        ((if verbose then [LogUnignored ev] else [])
           ++ [Send {| Time := now r; Event := ev |}], Running)
  | ErrorsClosed => ([CloseCmdCh], Returned)
  | ErrorsRecv None => ([CloseCmdCh], Returned)
  | ErrorsRecv (Some err) => ([LogWatchError err], Running)
  end.

(** [listenForEvents] on the rounds the environment offers: the actions
    performed, and [Running] when the loop waits in [select] for more. *)
Fixpoint listenForEvents `{Ignorer T} (verbose : bool) (ignorer : T)
    (rounds : list round) : list action * status :=
  match rounds with
  | [] => ([], Running)
  | r :: rest =>
      match listenForEvents_round verbose ignorer r with
      | (acts, Returned) => (acts, Returned)
      | (acts, Running) =>
          let '(acts', st) := listenForEvents verbose ignorer rest in
          (acts ++ acts', st)
      end
  end.

(** The items sent on the output channel, in order. *)
Definition sent (acts : list action) : list event :=
  omap (λ a, match a with Send e => Some e | _ => None end) acts.

(** The channel operations (a send or the close), as opposed to logging. *)
Definition is_channel_op (a : action) : bool :=
  match a with
  | Send _ | CloseCmdCh => true
  | LogUnignored _ | LogWatchError _ => false
  end.

Definition channel_ops (acts : list action) : list action :=
  List.filter is_channel_op acts.

(** ** Vocabulary of the properties *)

(** The rounds that end the loop in the words of the specification: a
    channel closes, or a nil error arrives. *)
Definition stops (r : round) : bool :=
  match recv r with
  | EventsClosed | ErrorsClosed | ErrorsRecv None => true
  | EventsRecv _ | ErrorsRecv (Some _) => false
  end.

(** The rounds a run goes through: up to the first that ends the loop. *)
Fixpoint processed (rounds : list round) : list round :=
  match rounds with
  | [] => []
  | r :: rest => if stops r then [r] else r :: processed rest
  end.

(** What the specification forwards for one round: a raw event that the
    ignore policy does not flag, with the time of the round. *)
Definition forwarded `{Ignorer T} (ignorer : T) (r : round) : list event :=
  match recv r with
  | EventsRecv ev =>
      if IsIgnored ignorer (Name ev) then []
      else [{| Time := now r; Event := ev |}]
  | _ => []
  end.

(** [q] lies below the directory [p]: [p], a separator, and more. *)
Definition descendant (p q : string) : Prop :=
  ∃ rest, q = p +:+ "/" +:+ rest ∨ (p = "/" ∧ q = p +:+ rest).

(** [os.Getwd] gives a rooted path when it gives one. *)
Definition getwd_rooted (env : Env) : Prop :=
  ∀ wd, Getwd env = Some wd → filepath.IsAbs wd = true.

(** An element of a cleaned path: not empty, not [.] or [..], without a
    separator. *)
Fixpoint has_sep (s : string) : bool :=
  match s with
  | EmptyString => false
  | String c s' => filepath.IsPathSeparator c || has_sep s'
  end.

Definition real (e : string) : Prop :=
  e ≠ "" ∧ e ≠ "." ∧ e ≠ ".." ∧ has_sep e = false.

(** The directory-prefix form [createUserIgnorer] records for a path. *)
Definition dirPrefix (path : string) : string :=
  if negb (strings.HasSuffix path "/") then path +:+ "/" else path.

(** What the loop of [createUserIgnorer] keeps: every path of the
    exact-match set is a resolved path and has its prefix recorded. *)
Definition ignorer_inv (env : Env) (ignored : gmap string bool)
    (ignoredDirs : list string) : Prop :=
  ∀ p, get ignored p = true →
    (∃ x, filepath.Abs (Getwd env) x = Some p) ∧ dirPrefix p ∈ ignoredDirs.

(** The registered paths are the keys of [userPaths], each once. *)
Definition registered_keys (w : watcher) (userPaths : pathmap) : Prop :=
  NoDup (added w) ∧ ∀ p, p ∈ added w ↔ is_Some (userPaths !! p).

(** An entry of the ignore list that is not blank once trimmed. *)
Definition nonblank (env : Env) (entry : string) : bool :=
  negb (bool_decide (String.length (TrimSpace env entry) = 0%nat)).

(** The errors the loop of [createUserIgnorer] and the first loop of
    [watch] return when a path cannot be resolved. *)
Definition ignored_paths_error : string :=
  "unable to get current working dir while working with ignored paths".

Definition watched_paths_error : string :=
  "unable to get current working directory while working with user-watched paths".

(** The non-nil errors among the rounds, in order. *)
Definition received_errors (rounds : list round) : list string :=
  omap (λ r, match recv r with ErrorsRecv (Some err) => Some err | _ => None end) rounds.

(** The lines [log.Println("watch error:", err)] wrote, in order. *)
Definition error_logs (acts : list action) : list string :=
  omap (λ a, match a with LogWatchError err => Some err | _ => None end) acts.

(** The events [log.Printf("unignored file change: %s", ev)] wrote. *)
Definition unignored_logs (acts : list action) : list fsEvent :=
  omap (λ a, match a with LogUnignored ev => Some ev | _ => None end) acts.

(** The closes of the output channel among the actions. *)
Definition closes (acts : list action) : list action :=
  List.filter (λ a, match a with CloseCmdCh => true | _ => false end) acts.

(** ** A concrete environment, for examples *)

Fixpoint trim_left (s : string) : string :=
  match s with
  | String c s' => if Ascii.is_space c then trim_left s' else s
  | EmptyString => EmptyString
  end.

(** [TrimSpace] on the ASCII white space. *)
Definition ascii_TrimSpace (s : string) : string :=
  String.rev (trim_left (String.rev (trim_left s))).

(** An environment with the working directory [/home/u], one directory,
    one small file, one file larger than the cap, and a watcher that
    cannot register paths below [/gone]. *)
Definition example_env : Env := {|
  Getwd := Some "/home/u";
  TrimSpace := ascii_TrimSpace;
  Sum256 := λ bs, bs;
  Open := λ path,
    if decide (path = "/tmp/proj") then Directory
    else if decide (path = "/tmp/proj/file.txt") then Regular [Byte.x68; Byte.x69] None
    else if decide (path = "/tmp/huge") then
      Regular (repeat Byte.x00 (N.to_nat (maxHashedFileSize + 1))) None
    else OpenFails "no such file or directory";
  NewWatcherErr := None;
  AddErr := λ _ path,
    if strings.HasPrefix path "/gone" then Some "no such file or directory" else None;
  Range := λ m, (map_to_list m).*1;
|}.

(** A successful call of [watch] in that environment: what it returns,
    the watcher it leaves and the ignorer it hands to the dispatch task. *)
Definition example_userPaths : pathmap :=
  match returned (watch example_env ["/tmp/proj/file.txt"] []) with
  | Ok m => m
  | Err _ => ∅
  end.

Definition example_watcher : watcher :=
  default newWatcher (watcher_state (watch example_env ["/tmp/proj/file.txt"] [])).

Definition example_ignorer : smartIgnorer :=
  default {| includedHiddenFiles := ∅; ui := {| ignored := ∅; ignoredDirs := [] |};
             renameDirs := ∅; renameChildren := ∅ |}
    (dispatch_task (watch example_env ["/tmp/proj/file.txt"] [])).

Example Clean_doc_1 : filepath.Clean "a//c" = "a/c". Proof. reflexivity. Qed.
Example Clean_doc_2 : filepath.Clean "a/c/b/.." = "a/c". Proof. reflexivity. Qed.
Example Clean_doc_3 : filepath.Clean "/../a/b/../././/c" = "/a/c". Proof. reflexivity. Qed.
Example Clean_doc_4 : filepath.Clean "../../a/.." = "../..". Proof. reflexivity. Qed.
Example Clean_doc_5 : filepath.Clean "/" = "/". Proof. reflexivity. Qed.
Example Clean_doc_6 : filepath.Clean "a/.." = ".". Proof. reflexivity. Qed.
Example Dir_doc_1 : filepath.Dir "/foo/bar/baz.js" = "/foo/bar". Proof. reflexivity. Qed.
Example Dir_doc_2 : filepath.Dir "dev.txt" = ".". Proof. reflexivity. Qed.
Example Dir_doc_3 : filepath.Dir "/foo" = "/". Proof. reflexivity. Qed.
Example Dir_doc_4 : filepath.Dir "" = ".". Proof. reflexivity. Qed.
Example Base_doc_1 : filepath.Base "/foo/bar/baz.js" = "baz.js". Proof. reflexivity. Qed.
Example Base_doc_2 : filepath.Base "/a/b/" = "b". Proof. reflexivity. Qed.
Example Base_doc_3 : filepath.Base "///" = "/". Proof. reflexivity. Qed.
Example Abs_1 : filepath.Abs (Some "/home/u") "x/../y" = Some "/home/u/y". Proof. reflexivity. Qed.

(** ** Facts about [strings] *)

Lemma append_nil_l (t : string) : "" +:+ t = t.
Proof. reflexivity. Qed.

Lemma append_cons (c : ascii) (s t : string) : String c s +:+ t = String c (s +:+ t).
Proof. reflexivity. Qed.

Lemma append_empty_r (s : string) : s +:+ "" = s.
Proof. induction s as [|c s IH]; [done|]. by rewrite append_cons, IH. Qed.

Lemma append_assoc (a b c : string) : (a +:+ b) +:+ c = a +:+ b +:+ c.
Proof. induction a as [|x a IH]; [done|]. by rewrite !append_cons, IH. Qed.

Lemma HasPrefix_append (p rest : string) : strings.HasPrefix (p +:+ rest) p = true.
Proof.
  induction p as [|c p IH]; [done|].
  rewrite append_cons. simpl. by rewrite decide_True.
Qed.

Lemma HasPrefix_spec (s p : string) :
  strings.HasPrefix s p = true ↔ ∃ rest, s = p +:+ rest.
Proof.
  split.
  - revert s. induction p as [|c p IH]; intros s Hs.
    + by exists s.
    + destruct s as [|d s]; [done|]. simpl in Hs.
      destruct (decide (c = d)) as [->|]; [|done].
      destruct (IH _ Hs) as [rest ->]. by exists rest.
  - intros [rest ->]. apply HasPrefix_append.
Qed.

Lemma HasPrefix_trans (s p q : string) :
  strings.HasPrefix s p = true → strings.HasPrefix p q = true →
  strings.HasPrefix s q = true.
Proof.
  rewrite !HasPrefix_spec. intros [r1 ->] [r2 ->].
  exists (r2 +:+ r1). by rewrite append_assoc.
Qed.

Lemma rev_app_append (s acc : string) :
  String.rev_app s acc = String.rev_app s "" +:+ acc.
Proof.
  revert acc. induction s as [|c s IH]; intros acc; simpl; [done|].
  rewrite (IH (String c acc)), (IH (String c "")), append_assoc. done.
Qed.

Lemma string_rev_append (a b : string) : String.rev (a +:+ b) = String.rev b +:+ String.rev a.
Proof.
  unfold String.rev. induction a as [|c a IH].
  - by rewrite append_nil_l, append_empty_r.
  - rewrite append_cons. simpl.
    rewrite (rev_app_append (a +:+ b)), IH, (rev_app_append a (String c "")).
    by rewrite append_assoc.
Qed.

Lemma string_rev_involutive (s : string) : String.rev (String.rev s) = s.
Proof.
  induction s as [|c s IH]; [done|].
  change (String c s) with (String c "" +:+ s).
  rewrite string_rev_append, string_rev_append, IH. done.
Qed.

Lemma HasSuffix_spec (s suffix : string) :
  strings.HasSuffix s suffix = true ↔ ∃ front, s = front +:+ suffix.
Proof.
  unfold strings.HasSuffix. rewrite HasPrefix_spec. split.
  - intros [rest Hrest]. exists (String.rev rest).
    rewrite <-(string_rev_involutive s), Hrest, string_rev_append, string_rev_involutive. done.
  - intros [front ->]. exists (String.rev front). apply string_rev_append.
Qed.

(** ** The digest engine *)

Lemma read_limited_short (n : N) (content : list byte) :
  (N.of_nat (length content) ≤ n)%N → read_limited n content = (content, []).
Proof.
  revert n. induction content as [|b rest IH]; intros n Hlen; [done|].
  cbn [length] in Hlen. rewrite Nat2N.inj_succ in Hlen. cbn [read_limited].
  destruct (N.eqb_spec n 0) as [->|Hn]; [lia|].
  rewrite IH by lia. done.
Qed.

Lemma read_limited_long (n : N) (content : list byte) :
  (n < N.of_nat (length content))%N →
  ∃ hashed b rest,
    read_limited n content = (hashed, b :: rest) ∧ N.of_nat (length hashed) = n.
Proof.
  revert n. induction content as [|b rest IH]; intros n Hlen;
    cbn [length read_limited] in *; [lia|].
  rewrite Nat2N.inj_succ in Hlen.
  destruct (N.eqb_spec n 0) as [->|Hn].
  - by exists [], b, rest.
  - destruct (IH (n - 1)%N) as (h & b' & t & -> & Hh); [lia|].
    exists (b :: h), b', t. split; [done|].
    cbn [length]. rewrite Nat2N.inj_succ. lia.
Qed.

Lemma read_limited_rest (n : N) (content hashed rest : list byte) :
  read_limited n content = (hashed, rest) →
  content = hashed ++ rest ∧ (N.of_nat (length hashed) ≤ n)%N
  ∧ (rest ≠ [] → N.of_nat (length hashed) = n).
Proof.
  revert n hashed rest. induction content as [|b l IH]; intros n hashed rest;
    cbn [read_limited].
  - intros [= <- <-]. repeat split; [cbn; lia|done].
  - destruct (N.eqb_spec n 0) as [->|Hn].
    + intros [= <- <-]. by repeat split.
    + destruct (read_limited (n - 1) l) as [h t] eqn:Hrd.
      intros [= <- <-]. destruct (IH _ _ _ Hrd) as (-> & Hle & Heq).
      cbn [length]. rewrite Nat2N.inj_succ.
      repeat split; [lia|]. intros Ht. specialize (Heq Ht). lia.
Qed.

(** C4. A regular file with more bytes than the 20 MiB cap has no
    fingerprint and no error, whatever reading would give beyond the cap;
    a directory likewise gives [(nil, nil)]. *)
Theorem digest_too_big_or_directory (env : Env) (path : string) :
  (∀ content readErr,
     Open env path = Regular content readErr →
     (maxHashedFileSize < N.of_nat (length content))%N →
     digest env path = (None, None))
  ∧ (Open env path = Directory → digest env path = (None, None)).
Proof.
  split.
  - intros content readErr Hopen Hlen. unfold digest. rewrite Hopen.
    destruct (read_limited_long _ _ Hlen) as (h & b & t & -> & Hh).
    rewrite Hh, N.ltb_irrefl. done.
  - intros Hopen. unfold digest. by rewrite Hopen.
Qed.

Lemma example_huge_length :
  N.of_nat (length (repeat Byte.x00 (N.to_nat (maxHashedFileSize + 1))))
  = (maxHashedFileSize + 1)%N.
Proof. rewrite repeat_length. apply N2Nat.id. Qed.

Lemma digest_too_big_or_directory_witness :
  digest example_env "/tmp/huge" = (None, None)
  ∧ digest example_env "/tmp/proj" = (None, None).
Proof.
  split.
  - apply (proj1 (digest_too_big_or_directory example_env "/tmp/huge")
             (repeat Byte.x00 (N.to_nat (maxHashedFileSize + 1))) None).
    + reflexivity.
    + rewrite example_huge_length. lia.
  - apply (proj2 (digest_too_big_or_directory example_env "/tmp/proj")).
    reflexivity.
Defined.

(** C8. A regular, readable file of at most 20 MiB gets the SHA-256 sum
    of its whole content, a non-nil fingerprint, and no error; and
    [(nil, nil)] is returned only for a directory or for a file with
    more bytes than the cap. *)
Theorem digest_within_cap (env : Env) (path : string) :
  (∀ content,
     Open env path = Regular content None →
     (N.of_nat (length content) ≤ maxHashedFileSize)%N →
     digest env path = (Some (Sum256 env content), None))
  ∧ (digest env path = (None, None) →
     Open env path = Directory
     ∨ ∃ content readErr,
         Open env path = Regular content readErr
         ∧ (maxHashedFileSize < N.of_nat (length content))%N).
Proof.
  split.
  - intros content Hopen Hlen. unfold digest. rewrite Hopen.
    rewrite (read_limited_short _ _ Hlen).
    by destruct (N.of_nat (length content) <? maxHashedFileSize)%N.
  - unfold digest. destruct (Open env path) as [e|e| |content readErr] eqn:Hopen;
      [done|done|by left|].
    destruct (read_limited maxHashedFileSize content) as [hashed rest] eqn:Hrd.
    destruct (read_limited_rest _ _ _ _ Hrd) as (-> & Hle & Heq).
    intros Hd. right. exists (hashed ++ rest), readErr. split; [done|].
    destruct rest as [|b rest].
    + by destruct (if (N.of_nat (length hashed) <? maxHashedFileSize)%N
                   then readErr else None).
    + rewrite length_app. cbn [length]. specialize (Heq ltac:(done)). lia.
Qed.

Lemma digest_within_cap_witness :
  digest example_env "/tmp/proj/file.txt"
  = (Some (Sum256 example_env [Byte.x68; Byte.x69]), None).
Proof.
  apply (proj1 (digest_within_cap example_env "/tmp/proj/file.txt")).
  - reflexivity.
  - vm_compute. discriminate.
Defined.

(** ** The event dispatch loop *)

Section dispatch.
Context {T : Type} `{!Ignorer T}.
Variables (verbose : bool) (ignorer : T).

(** A round returns exactly when it is one of the three the
    specification names. *)
Lemma round_status (r : round) :
  (listenForEvents_round verbose ignorer r).2
  = if stops r then Returned else Running.
Proof.
  unfold listenForEvents_round, stops.
  destruct (recv r) as [ev| |[err|]|]; simpl; try done.
  by destruct (IsIgnored ignorer (Name ev)).
Qed.

(** A round that goes on closes nothing. *)
Lemma round_running_no_close (r : round) (acts : list action) :
  listenForEvents_round verbose ignorer r = (acts, Running) → CloseCmdCh ∉ acts.
Proof.
  unfold listenForEvents_round.
  destruct (recv r) as [ev| |[err|]|]; simpl; [|done| |done|done].
  - destruct (IsIgnored ignorer (Name ev)), verbose; intros Heq Hin;
      injection Heq as <-;
      repeat (apply elem_of_cons in Hin as [Hin|Hin]; [discriminate|]);
      by apply elem_of_nil in Hin.
  - intros Heq Hin. injection Heq as <-.
    apply elem_of_cons in Hin as [Hin|Hin]; [discriminate|].
    by apply elem_of_nil in Hin.
Qed.

(** A round that returns either closes the output channel and does
    nothing else, or does nothing at all. *)
Lemma round_returned (r : round) (acts : list action) :
  listenForEvents_round verbose ignorer r = (acts, Returned) →
  acts = [CloseCmdCh] ∨ (acts = [] ∧ recv r = EventsClosed).
Proof.
  unfold listenForEvents_round.
  destruct (recv r) as [ev| |[err|]|]; simpl.
  - by destruct (IsIgnored ignorer (Name ev)).
  - intros [= <-]. by right.
  - done.
  - intros [= <-]. by left.
  - intros [= <-]. by left.
Qed.

(** The loop has returned exactly when one of the rounds stops it. *)
Lemma listenForEvents_status (rounds : list round) :
  (listenForEvents verbose ignorer rounds).2
  = if existsb stops rounds then Returned else Running.
Proof.
  induction rounds as [|r rest IH]; simpl; [done|].
  pose proof (round_status r) as Hr.
  destruct (listenForEvents_round verbose ignorer r) as [acts st].
  simpl in Hr. subst st. destruct (stops r); simpl; [done|].
  destruct (listenForEvents verbose ignorer rest) as [acts' st']. done.
Qed.

(** The shape of every run: the output channel is not closed, or it is
    closed by the last action, after which the function has returned. *)
Lemma listenForEvents_close_last (rounds : list round) :
  let '(acts, st) := listenForEvents verbose ignorer rounds in
  CloseCmdCh ∉ acts
  ∨ ∃ before, acts = before ++ [CloseCmdCh] ∧ (CloseCmdCh ∉ before) ∧ st = Returned.
Proof.
  induction rounds as [|r rest IH]; simpl; [left; apply not_elem_of_nil|].
  destruct (listenForEvents_round verbose ignorer r) as [acts [|]] eqn:Hr.
  - apply round_running_no_close in Hr.
    destruct (listenForEvents verbose ignorer rest) as [acts' st'].
    destruct IH as [Hno|(before & -> & Hno & ->)].
    + left. rewrite elem_of_app. tauto.
    + right. exists (acts ++ before). rewrite app_assoc, elem_of_app. tauto.
  - destruct (round_returned _ _ Hr) as [->|[-> _]].
    + right. exists []. split_and!; [done|apply not_elem_of_nil|done].
    + left. apply not_elem_of_nil.
Qed.

(** C10. In every run of the loop, nothing follows the close of the
    output channel: no send and no other action, and the function has
    returned. *)
Theorem no_action_after_close (rounds : list round) (before after : list action) :
  (listenForEvents verbose ignorer rounds).1 = before ++ CloseCmdCh :: after →
  after = [] ∧ (listenForEvents verbose ignorer rounds).2 = Returned.
Proof.
  pose proof (listenForEvents_close_last rounds) as Hshape.
  destruct (listenForEvents verbose ignorer rounds) as [acts st]. simpl.
  intros ->. destruct Hshape as [Hno|(before' & Heq & Hno & ->)].
  - exfalso. apply Hno. rewrite elem_of_app, elem_of_cons. tauto.
  - split; [|done].
    destruct after as [|a after _] using rev_ind; [done|].
    rewrite app_comm_cons, app_assoc in Heq.
    apply app_inj_tail in Heq as [<- _].
    exfalso. apply Hno. rewrite elem_of_app, elem_of_cons. tauto.
Qed.

(** What the rounds of a run send. *)
Lemma listenForEvents_sent (rounds : list round) :
  sent (listenForEvents verbose ignorer rounds).1
  = flat_map (forwarded ignorer) (processed rounds).
Proof.
  induction rounds as [|r rest IH]; simpl; [done|].
  pose proof (round_status r) as Hst.
  assert (sent (listenForEvents_round verbose ignorer r).1 = forwarded ignorer r)
    as Hsent.
  { unfold listenForEvents_round, forwarded, sent.
    destruct (recv r) as [ev| |[err|]|]; simpl; try done.
    destruct (IsIgnored ignorer (Name ev)); [done|]. by destruct verbose. }
  destruct (listenForEvents_round verbose ignorer r) as [acts st].
  simpl in Hst, Hsent. subst st. destruct (stops r); simpl.
  - by rewrite app_nil_r.
  - destruct (listenForEvents verbose ignorer rest) as [acts' st']. simpl in *.
    unfold sent in *. by rewrite omap_app, Hsent, IH.
Qed.

End dispatch.

(** C1, at the input where it fails: when the events channel closes, the
    loop returns and the output channel is left open; nothing is done at
    all.  The two paths through the errors channel do close it. *)
Theorem events_closed_returns_without_close
    `{Ignorer T} (verbose : bool) (ignorer : T) (t : Z) :
  listenForEvents verbose ignorer [{| recv := EventsClosed; now := t |}] = ([], Returned)
  ∧ listenForEvents verbose ignorer [{| recv := ErrorsClosed; now := t |}]
    = ([CloseCmdCh], Returned)
  ∧ listenForEvents verbose ignorer [{| recv := ErrorsRecv None; now := t |}]
    = ([CloseCmdCh], Returned).
Proof. done. Qed.

(** The part of C1 that holds: a run has returned exactly when a channel
    closed or a nil error arrived in one of its rounds. *)
Lemma listenForEvents_returns_iff `{Ignorer T} (verbose : bool) (ignorer : T)
    (rounds : list round) :
  (listenForEvents verbose ignorer rounds).2 = Returned
  ↔ ∃ r, r ∈ rounds ∧ stops r = true.
Proof.
  rewrite listenForEvents_status.
  destruct (existsb stops rounds) eqn:Hex.
  - apply existsb_exists in Hex as (r & Hin & Hr).
    split; [|done]. intros _. exists r. by rewrite list_elem_of_In.
  - split; [done|]. intros (r & Hin & Hr).
    assert (existsb stops rounds = true) as Hex'; [|congruence].
    apply existsb_exists. exists r. by rewrite <-list_elem_of_In.
Qed.

Lemma no_action_after_close_witness :
  let rounds := [{| recv := EventsRecv {| Name := "/y"; Op := 2 |}; now := 5 |};
                 {| recv := ErrorsClosed; now := 6 |};
                 {| recv := EventsRecv {| Name := "/y"; Op := 2 |}; now := 7 |}] in
  let ignorer : string → bool := λ _, false in
  (listenForEvents true ignorer rounds).2 = Returned.
Proof.
  intros rounds ignorer.
  refine (proj2 (no_action_after_close true ignorer rounds
            [LogUnignored {| Name := "/y"; Op := 2 |};
             Send {| Time := 5; Event := {| Name := "/y"; Op := 2 |} |}] [] _)).
  reflexivity.
Defined.

(** C6. A raw event that the ignore policy flags sends nothing; any
    other raw event sends exactly one item, the event with the time of
    its round; and the items a run sends are those of its raw events that
    are not flagged, in the order in which they were received. *)
Theorem events_forwarded_in_order `{Ignorer T} (verbose : bool) (ignorer : T) :
  (∀ ev t,
     sent (listenForEvents_round verbose ignorer {| recv := EventsRecv ev; now := t |}).1
     = if IsIgnored ignorer (Name ev) then []
       else [{| Time := t; Event := ev |}])
  ∧ (∀ rounds,
       sent (listenForEvents verbose ignorer rounds).1
       = flat_map (forwarded ignorer) (processed rounds)).
Proof.
  split.
  - intros ev t. unfold listenForEvents_round. simpl.
    destruct (IsIgnored ignorer (Name ev)); [done|]. by destruct verbose.
  - apply listenForEvents_sent.
Qed.

(** One round does the same to the channels under both values of the
    flag. *)
Lemma round_verbose_irrelevant `{Ignorer T} (v1 v2 : bool) (ignorer : T) (r : round) :
  channel_ops (listenForEvents_round v1 ignorer r).1
  = channel_ops (listenForEvents_round v2 ignorer r).1
  ∧ (listenForEvents_round v1 ignorer r).2 = (listenForEvents_round v2 ignorer r).2.
Proof.
  unfold listenForEvents_round.
  destruct (recv r) as [ev| |[err|]|]; simpl; try done.
  destruct (IsIgnored ignorer (Name ev)); [done|]. by destruct v1, v2.
Qed.

(** C9. Two runs of the loop on the same rounds that differ only in the
    verbose flag perform the same channel operations in the same order,
    so they send the same items, and they end in the same status. *)
Theorem verbose_flag_irrelevant `{Ignorer T} (v1 v2 : bool) (ignorer : T)
    (rounds : list round) :
  channel_ops (listenForEvents v1 ignorer rounds).1
  = channel_ops (listenForEvents v2 ignorer rounds).1
  ∧ sent (listenForEvents v1 ignorer rounds).1 = sent (listenForEvents v2 ignorer rounds).1
  ∧ (listenForEvents v1 ignorer rounds).2 = (listenForEvents v2 ignorer rounds).2.
Proof.
  split; [|split].
  - induction rounds as [|r rest IH]; simpl; [done|].
    destruct (round_verbose_irrelevant v1 v2 ignorer r) as [Hops Hst].
    destruct (listenForEvents_round v1 ignorer r) as [a1 s1].
    destruct (listenForEvents_round v2 ignorer r) as [a2 s2].
    simpl in Hops, Hst. subst s2. destruct s1; [|done].
    destruct (listenForEvents v1 ignorer rest) as [b1 t1].
    destruct (listenForEvents v2 ignorer rest) as [b2 t2].
    simpl in *. unfold channel_ops in *. by rewrite !List.filter_app, Hops, IH.
  - by rewrite !listenForEvents_sent.
  - by rewrite !listenForEvents_status.
Qed.

(** ** Facts about [filepath] *)

Lemma IsPathSeparator_true (c : ascii) :
  filepath.IsPathSeparator c = true ↔ c = "/"%char.
Proof. unfold filepath.IsPathSeparator. by rewrite bool_decide_eq_true. Qed.

Lemma split_no_sep (s : string) : Forall (λ e, has_sep e = false) (filepath.split s).
Proof.
  induction s as [|c s IH]; simpl.
  - by constructor.
  - destruct (filepath.IsPathSeparator c) eqn:Hc.
    + by constructor.
    + destruct (filepath.split s) as [|e es]; constructor; simpl; try done.
      * by rewrite Hc.
      * inversion IH; subst. by rewrite Hc.
      * by inversion IH.
Qed.

Lemma split_append (e s : string) :
  has_sep e = false →
  filepath.split (e +:+ String "/" s) = e :: filepath.split s.
Proof.
  induction e as [|c e IH]; intros He.
  - done.
  - simpl in He. apply orb_false_iff in He as [Hc He].
    rewrite append_cons. simpl. rewrite Hc, (IH He). done.
Qed.

Lemma split_one (e : string) : has_sep e = false → filepath.split e = [e].
Proof.
  induction e as [|c e IH]; intros He; [done|].
  simpl in He. apply orb_false_iff in He as [Hc He].
  simpl. by rewrite Hc, (IH He).
Qed.

Lemma split_join (es : list string) :
  es ≠ [] → Forall (λ e, has_sep e = false) es →
  filepath.split (filepath.join es) = es.
Proof.
  induction es as [|e es IH]; [done|]. intros _ Hes.
  apply Forall_cons in Hes as [He Hes].
  destruct es as [|e' es].
  - by apply split_one.
  - change (filepath.join (e :: e' :: es))
      with (e +:+ String "/" (filepath.join (e' :: es))).
    rewrite (split_append _ _ He), IH; done.
Qed.

Lemma real_no_sep (es : list string) :
  Forall real es → Forall (λ e, has_sep e = false) es.
Proof. intros Hes. eapply Forall_impl; [done|]. by intros e (_ & _ & _ & ?). Qed.

(** On a rooted path the stack holds real elements only. *)
Lemma clean_elems_rooted_real (out es : list string) :
  Forall real out → Forall (λ e, has_sep e = false) es →
  Forall real (filepath.clean_elems true out es).
Proof.
  revert out. induction es as [|e es IH]; intros out Hout Hes; simpl; [done|].
  apply Forall_cons in Hes as [He Hes].
  destruct (decide (e = "" ∨ e = ".")) as [|Hne]; [by apply IH|].
  destruct (decide (e = "..")) as [->|Hdd].
  - destruct out as [|top out]; [by apply IH|].
    apply Forall_cons in Hout as [Htop Hout].
    destruct (decide (top = "..")) as [->|]; [by destruct Htop as (_ & _ & ? & _)|].
    by apply IH.
  - apply IH; [|done]. constructor; [|done]. unfold real. tauto.
Qed.

(** Real elements are pushed as they come. *)
Lemma clean_elems_real (rooted : bool) (out es : list string) :
  Forall real es → filepath.clean_elems rooted out es = rev es ++ out.
Proof.
  revert out. induction es as [|e es IH]; intros out Hes; simpl; [done|].
  apply Forall_cons in Hes as [(He1 & He2 & He3 & _) Hes].
  rewrite decide_False by (by intros [?|?]). rewrite decide_False by done.
  rewrite IH by done. by rewrite <-app_assoc.
Qed.

(** The form of a cleaned rooted path: the separator and real elements
    joined with separators. *)
Lemma Clean_rooted (path : string) :
  filepath.IsAbs path = true →
  ∃ es, Forall real es ∧ filepath.Clean path = String "/" (filepath.join es).
Proof.
  intros Habs. unfold filepath.Clean.
  destruct (decide (path = "")) as [->|_]; [done|]. rewrite Habs.
  exists (rev (filepath.clean_elems true [] (filepath.split path))). split.
  - apply Forall_rev, clean_elems_rooted_real; [done|apply split_no_sep].
  - done.
Qed.

(** Paths of that form are left as they are. *)
Lemma Clean_canonical (es : list string) :
  Forall real es →
  filepath.Clean (String "/" (filepath.join es)) = String "/" (filepath.join es).
Proof.
  intros Hes. unfold filepath.Clean.
  rewrite decide_False by done. simpl.
  destruct es as [|e es]; [done|].
  rewrite split_join by (done || by apply real_no_sep).
  rewrite clean_elems_real by done. by rewrite app_nil_r, rev_involutive.
Qed.

Lemma Clean_rooted_idem (path : string) :
  filepath.IsAbs path = true →
  filepath.IsAbs (filepath.Clean path) = true
  ∧ filepath.Clean (filepath.Clean path) = filepath.Clean path.
Proof.
  intros Habs. destruct (Clean_rooted path Habs) as (es & Hes & ->).
  split; [done|]. by apply Clean_canonical.
Qed.

Lemma IsAbs_append (a b : string) :
  filepath.IsAbs a = true → filepath.IsAbs (a +:+ b) = true.
Proof. by destruct a. Qed.

(** What [Abs] resolves a path to is rooted and cleaned. *)
Lemma Abs_form (getwd : option string) (path full : string) :
  (∀ wd, getwd = Some wd → filepath.IsAbs wd = true) →
  filepath.Abs getwd path = Some full →
  ∃ es, Forall real es ∧ full = String "/" (filepath.join es).
Proof.
  intros Hwd. unfold filepath.Abs.
  destruct (filepath.IsAbs path) eqn:Habs.
  - intros [= <-]. by apply Clean_rooted.
  - destruct getwd as [wd|]; [|done]. intros [= <-].
    specialize (Hwd wd eq_refl). unfold filepath.Join.
    rewrite decide_False by (by destruct wd).
    apply Clean_rooted. by apply IsAbs_append.
Qed.

(** Resolving a resolved path gives it back. *)
Lemma Abs_idem (getwd : option string) (path full : string) :
  (∀ wd, getwd = Some wd → filepath.IsAbs wd = true) →
  filepath.Abs getwd path = Some full →
  filepath.Abs getwd full = Some full.
Proof.
  intros Hwd Hfull. destruct (Abs_form _ _ _ Hwd Hfull) as (es & Hes & ->).
  unfold filepath.Abs. simpl. by rewrite Clean_canonical.
Qed.

(** ** The user ignorer *)

Lemma get_insert_true (m : gmap string bool) (k p : string) :
  get (<[k := true]> m) p = true ↔ p = k ∨ get m p = true.
Proof.
  unfold get. destruct (decide (k = p)) as [->|Hne].
  - rewrite lookup_insert_eq. simpl. tauto.
  - rewrite lookup_insert_ne by done. split; [tauto|]. by intros [->|?].
Qed.

Lemma get_insert_false (m : gmap string bool) (k p : string) :
  get (<[k := true]> m) p = false ↔ p ≠ k ∧ get m p = false.
Proof.
  unfold get. destruct (decide (k = p)) as [->|Hne].
  - rewrite lookup_insert_eq. simpl. split; [done|]. by intros [? _].
  - rewrite lookup_insert_ne by done. split; [|tauto]. intros ?. split; congruence.
Qed.

Lemma get_empty (p : string) : get ∅ p = false.
Proof. unfold get. by rewrite lookup_empty. Qed.

(** The prefix recorded for a path starts every path below it. *)
Lemma dirPrefix_descendant (p q : string) :
  descendant p q → strings.HasPrefix q (dirPrefix p) = true.
Proof.
  intros [rest Hq]. unfold dirPrefix.
  destruct (strings.HasSuffix p "/") eqn:Hsuf; simpl.
  - destruct Hq as [->|[_ ->]]; apply HasPrefix_append.
  - destruct Hq as [->|[-> _]]; [|done].
    rewrite <-append_assoc. apply HasPrefix_append.
Qed.

Lemma createUserIgnorer_loop_inv (env : Env) (ignoredPaths : list string)
    (ignored0 : gmap string bool) (dirs0 : list string) (u : userIgnorer) :
  ignorer_inv env ignored0 dirs0 →
  createUserIgnorer_loop env ignoredPaths ignored0 dirs0 = Ok u →
  ignorer_inv env (ignored u) (ignoredDirs u).
Proof.
  revert ignored0 dirs0.
  induction ignoredPaths as [|x rest IH]; intros ignored0 dirs0 Hinv; simpl.
  - by intros [= <-].
  - destruct (decide (String.length (TrimSpace env x) = 0%nat)); [by apply IH|].
    destruct (filepath.Abs (Getwd env) (TrimSpace env x)) as [path|] eqn:Habs;
      [|done].
    apply IH. intros p [->|Hp]%get_insert_true.
    + split; [by eexists|]. apply elem_of_app. right. by apply list_elem_of_singleton.
    + destruct (Hinv p Hp) as [Hx Hd]. split; [done|]. apply elem_of_app. by left.
Qed.

(** Every entry of the ignore list that is not blank is in the
    exact-match set under its resolved form. *)
Lemma createUserIgnorer_loop_entries (env : Env) (ignoredPaths : list string)
    (ignored0 : gmap string bool) (dirs0 : list string) (u : userIgnorer) :
  createUserIgnorer_loop env ignoredPaths ignored0 dirs0 = Ok u →
  (∀ p, get ignored0 p = true → get (ignored u) p = true)
  ∧ (∀ x p, x ∈ ignoredPaths → String.length (TrimSpace env x) ≠ 0%nat →
       filepath.Abs (Getwd env) (TrimSpace env x) = Some p →
       get (ignored u) p = true).
Proof.
  revert ignored0 dirs0.
  induction ignoredPaths as [|x rest IH]; intros ignored0 dirs0; simpl.
  - intros [= <-]. split; [done|]. by intros x p ?%elem_of_nil.
  - destruct (decide (String.length (TrimSpace env x) = 0%nat)) as [Hlen|Hlen].
    + intros Hu. destruct (IH _ _ Hu) as [Hmono Hent]. split; [done|].
      intros y p [->|Hy]%elem_of_cons; [done|]. by apply Hent.
    + destruct (filepath.Abs (Getwd env) (TrimSpace env x)) as [path|] eqn:Habs;
        [|done].
      intros Hu. destruct (IH _ _ Hu) as [Hmono Hent]. split.
      * intros p Hp. apply Hmono, get_insert_true. by right.
      * intros y p [->|Hy]%elem_of_cons; [|by apply Hent].
        intros _ Hp. rewrite Habs in Hp. injection Hp as <-.
        apply Hmono, get_insert_true. by left.
Qed.

Lemma userIgnorer_IsIgnored_spec (env : Env) (u : userIgnorer) (path : string) :
  userIgnorer_IsIgnored env u path = true
  ↔ ∃ full, filepath.Abs (Getwd env) path = Some full
      ∧ (get (ignored u) full = true
         ∨ ∃ dir, dir ∈ ignoredDirs u ∧ strings.HasPrefix full dir = true).
Proof.
  unfold userIgnorer_IsIgnored.
  destruct (filepath.Abs (Getwd env) path) as [full|]; [|by split; [|intros (? & ? & _)]].
  rewrite orb_true_iff, existsb_exists. split.
  - intros [Hex|(dir & Hin & Hpre)]; exists full; (split; [done|]); [by left|].
    right. exists dir. by rewrite list_elem_of_In.
  - intros (? & [= <-] & [Hex|(dir & Hin & Hpre)]); [by left|].
    right. exists dir. by rewrite <-list_elem_of_In.
Qed.

Lemma createUserIgnorer_inv (env : Env) (ignoredPaths : list string) (u : userIgnorer) :
  createUserIgnorer env ignoredPaths = Ok u →
  ignorer_inv env (ignored u) (ignoredDirs u).
Proof.
  intros Hu. eapply createUserIgnorer_loop_inv; [|exact Hu].
  intros p Hp. by rewrite get_empty in Hp.
Qed.

(** With the two sets as [createUserIgnorer] builds them, the paths of
    the exact-match set and the paths below them are flagged. *)
Lemma ignorer_inv_covers (env : Env) (u : userIgnorer) (p : string) :
  getwd_rooted env →
  ignorer_inv env (ignored u) (ignoredDirs u) →
  get (ignored u) p = true →
  userIgnorer_IsIgnored env u p = true
  ∧ ∀ d full, filepath.Abs (Getwd env) d = Some full → descendant p full →
      userIgnorer_IsIgnored env u d = true.
Proof.
  intros Hwd Hinv Hp. destruct (Hinv p Hp) as [[x Hx] Hdir]. split.
  - apply userIgnorer_IsIgnored_spec. exists p. split; [|by left].
    by eapply Abs_idem.
  - intros d full Hfull Hdesc. apply userIgnorer_IsIgnored_spec.
    exists full. split; [done|]. right. exists (dirPrefix p).
    split; [done|]. by apply dirPrefix_descendant.
Qed.

(** C2. For a user ignorer built by [createUserIgnorer]: every path of
    the exact-match set is ignored, and so is every path whose resolved
    form lies below one; the answer depends on the ignorer and the path
    alone, not on what is watched.  And [IsIgnored] is true exactly when
    the resolved absolute form of the path is in the exact-match set or
    starts with a recorded prefix. *)
Theorem userIgnorer_covers_entries_and_descendants
    (env : Env) (ignoredPaths : list string) (u : userIgnorer) :
  getwd_rooted env →
  createUserIgnorer env ignoredPaths = Ok u →
  (∀ p, get (ignored u) p = true →
     IsIgnored (Ignorer := userIgnorer_Ignorer env) u p = true
     ∧ ∀ d full, filepath.Abs (Getwd env) d = Some full → descendant p full →
         IsIgnored (Ignorer := userIgnorer_Ignorer env) u d = true)
  ∧ (∀ path,
       IsIgnored (Ignorer := userIgnorer_Ignorer env) u path = true
       ↔ ∃ full, filepath.Abs (Getwd env) path = Some full
           ∧ (get (ignored u) full = true
              ∨ ∃ dir, dir ∈ ignoredDirs u ∧ strings.HasPrefix full dir = true)).
Proof.
  intros Hwd Hu. split; [|apply userIgnorer_IsIgnored_spec].
  intros p Hp. apply ignorer_inv_covers; [done| |done].
  by eapply createUserIgnorer_inv.
Qed.

Lemma example_env_getwd_rooted : getwd_rooted example_env.
Proof. by intros wd [= <-]. Qed.

Lemma userIgnorer_covers_entries_and_descendants_witness :
  ∃ u, createUserIgnorer example_env ["  /tmp/proj/secret "] = Ok u
       ∧ IsIgnored (Ignorer := userIgnorer_Ignorer example_env) u
           "/tmp/proj/secret/data.bin" = true.
Proof.
  eexists. split; [reflexivity|].
  refine (proj2 (proj1 (userIgnorer_covers_entries_and_descendants
            example_env ["  /tmp/proj/secret "] _ example_env_getwd_rooted eq_refl)
            "/tmp/proj/secret" _) "/tmp/proj/secret/data.bin"
            "/tmp/proj/secret/data.bin" _ _).
  - reflexivity.
  - reflexivity.
  - exists "data.bin". by left.
Defined.

(** ** The watcher *)

Lemma Add_spec (env : Env) (w w' : watcher) (path : string) (err : option string) :
  Add env w path = (w', err) →
  closed w' = closed w
  ∧ added w' = match err with Some _ => added w | None => added w ++ [path] end.
Proof.
  unfold Add. destruct (AddErr env (added w) path); by intros [= <- <-].
Qed.

Lemma found_true (m : pathmap) (k : string) : found m k = true ↔ is_Some (m !! k).
Proof. unfold found. by rewrite bool_decide_eq_true. Qed.

Lemma found_false (m : pathmap) (k : string) : found m k = false ↔ m !! k = None.
Proof. unfold found. by rewrite bool_decide_eq_false, eq_None_not_Some. Qed.

(** ** The first loop of [watch] *)

(** An error leaves the watcher closed; otherwise the loop does not
    touch [closed]. *)
Lemma watch_inputs_closed (env : Env) (ui : userIgnorer) (inputPaths : list string)
    (w w' : watcher) (userPaths : pathmap) (r : result pathmap) :
  watch_inputs env ui inputPaths w userPaths = (w', r) →
  match r with
  | Err _ => closed w' = true
  | Ok _ => closed w' = closed w
  end.
Proof.
  revert w userPaths.
  induction inputPaths as [|path rest IH]; intros w userPaths; simpl.
  - by intros [= <- <-].
  - destruct (filepath.Abs (Getwd env) path) as [fullPath|]; [|by intros [= <- <-]].
    destruct (found userPaths fullPath || IsIgnored ui path); [by apply IH|].
    destruct (Add env w fullPath) as [w1 [err|]] eqn:Hadd.
    + by intros [= <- <-].
    + intros Hrest. apply IH in Hrest.
      apply Add_spec in Hadd as [Hc _]. destruct r; congruence.
Qed.

Lemma watch_inputs_registered_keys (env : Env) (ui : userIgnorer)
    (inputPaths : list string) (w w' : watcher) (userPaths userPaths' : pathmap) :
  registered_keys w userPaths →
  watch_inputs env ui inputPaths w userPaths = (w', Ok userPaths') →
  registered_keys w' userPaths'.
Proof.
  revert w userPaths.
  induction inputPaths as [|path rest IH]; intros w userPaths Hinv; simpl.
  - by intros [= <- <-].
  - destruct (filepath.Abs (Getwd env) path) as [fullPath|]; [|done].
    destruct (found userPaths fullPath) eqn:Hfound; simpl; [by apply IH|].
    destruct (IsIgnored ui path); [by apply IH|].
    destruct (Add env w fullPath) as [w1 [err|]] eqn:Hadd; [done|].
    apply IH. apply Add_spec in Hadd as [_ Hadded].
    destruct Hinv as [Hnodup Hkeys]. apply found_false in Hfound.
    split.
    + rewrite Hadded. apply NoDup_app. split_and!; [done| |apply NoDup_singleton].
      intros p Hp ->%list_elem_of_singleton.
      apply Hkeys in Hp. rewrite Hfound in Hp. by destruct Hp.
    + intros p. rewrite Hadded, elem_of_app, list_elem_of_singleton, Hkeys.
      rewrite lookup_insert_is_Some.
      destruct (decide (fullPath = p)) as [->|Hne]; [tauto|].
      split; [intros [?|?]; [tauto|congruence]|tauto].
Qed.

(** The answer of the user ignorer depends on the resolved form only. *)
Lemma userIgnorer_IsIgnored_resolved (env : Env) (u : userIgnorer) (a b : string) :
  filepath.Abs (Getwd env) a = filepath.Abs (Getwd env) b →
  userIgnorer_IsIgnored env u a = userIgnorer_IsIgnored env u b.
Proof. unfold userIgnorer_IsIgnored. by intros ->. Qed.

(** Whatever the first loop registers, or stores, is the resolved form of
    an input path that the user ignorer does not flag. *)
Lemma watch_inputs_unflagged (env : Env) (ui : userIgnorer)
    (inputPaths : list string) (w w' : watcher) (userPaths : pathmap)
    (r : result pathmap) :
  watch_inputs env ui inputPaths w userPaths = (w', r) →
  (∀ p, p ∈ added w' →
     p ∈ added w
     ∨ ∃ path, path ∈ inputPaths ∧ filepath.Abs (Getwd env) path = Some p
         ∧ userIgnorer_IsIgnored env ui path = false)
  ∧ (∀ userPaths' p, r = Ok userPaths' → is_Some (userPaths' !! p) →
       is_Some (userPaths !! p)
       ∨ ∃ path, path ∈ inputPaths ∧ filepath.Abs (Getwd env) path = Some p
           ∧ userIgnorer_IsIgnored env ui path = false).
Proof.
  revert w userPaths.
  induction inputPaths as [|path rest IH]; intros w userPaths; simpl.
  - intros [= <- <-]. split; [by left|]. intros ? p [= <-]. by left.
  - assert (∀ P : string → Prop,
              (∃ x, x ∈ rest ∧ P x) → ∃ x, x ∈ path :: rest ∧ P x) as Hrest.
    { intros P (x & Hx & HP). exists x. split; [by right|done]. }
    destruct (filepath.Abs (Getwd env) path) as [fullPath|] eqn:Habs.
    2:{ intros [= <- <-]. split; [by left|done]. }
    destruct (found userPaths fullPath || IsIgnored ui path) eqn:Hskip.
    { intros Hrun. destruct (IH _ _ Hrun) as [H1 H2]. split.
      - intros p Hp. destruct (H1 p Hp) as [?|?]; [by left|right; by apply Hrest].
      - intros up' p Hr Hp. destruct (H2 up' p Hr Hp) as [?|?];
          [by left|right; by apply Hrest]. }
    apply orb_false_iff in Hskip as [Hfound Hign].
    destruct (Add env w fullPath) as [w1 [err|]] eqn:Hadd;
      apply Add_spec in Hadd as [_ Hadded].
    + intros [= <- <-]. simpl. rewrite Hadded. split; [by left|done].
    + intros Hrun. destruct (IH _ _ Hrun) as [H1 H2].
      assert (∃ x, x ∈ path :: rest ∧ filepath.Abs (Getwd env) x = Some fullPath
                   ∧ userIgnorer_IsIgnored env ui x = false) as Hhere.
      { exists path. split; [by left|done]. }
      split.
      * intros p Hp. destruct (H1 p Hp) as [Hin|?]; [|right; by apply Hrest].
        rewrite Hadded, elem_of_app, list_elem_of_singleton in Hin.
        destruct Hin as [?| ->]; [by left|by right].
      * intros up' p Hr Hp. destruct (H2 up' p Hr Hp) as [Hin|?];
          [|right; by apply Hrest].
        apply lookup_insert_is_Some in Hin as [<-|[_ ?]]; [by right|by left].
Qed.

(** ** The second loop of [watch] *)

Lemma Clean_nonempty (path : string) : filepath.Clean path ≠ "".
Proof.
  unfold filepath.Clean. destruct (decide (path = "")); [done|].
  by destruct (decide (_ = "")).
Qed.

Lemma Dir_nonempty (path : string) : filepath.Dir path ≠ "".
Proof. apply Clean_nonempty. Qed.

(** The guard [!foundDir && dirPath != ""] only asks whether the parent
    is a key of [userPaths]. *)
Lemma rename_guard (userPaths : pathmap) (fullPath : string) :
  negb (found userPaths (filepath.Dir fullPath))
  && negb (bool_decide (filepath.Dir fullPath = ""))
  = bool_decide (userPaths !! filepath.Dir fullPath = None).
Proof.
  rewrite (bool_decide_eq_false_2 (filepath.Dir fullPath = "")) by apply Dir_nonempty.
  rewrite andb_true_r. destruct (found _ _) eqn:Hf; simpl; symmetry.
  - apply bool_decide_eq_false. apply found_true in Hf. by destruct Hf as [? ->].
  - apply bool_decide_eq_true. by apply found_false.
Qed.

Lemma watch_renames_closed (env : Env) (userPaths : pathmap) (keys : list string)
    (w w' : watcher) (st : renameState) (r : result renameState) :
  watch_renames env userPaths keys w st = (w', r) →
  match r with
  | Err _ => closed w' = true
  | Ok _ => closed w' = closed w
  end.
Proof.
  revert w st. induction keys as [|fullPath rest IH]; intros w st; simpl.
  - by intros [= <- <-].
  - destruct (negb (found userPaths (filepath.Dir fullPath)) && _); [|by apply IH].
    destruct (negb (get (rs_renameDirs st) (filepath.Dir fullPath))).
    + destruct (Add env w (filepath.Dir fullPath)) as [w1 [err|]] eqn:Hadd.
      * by intros [= <- <-].
      * intros Hrest. apply IH in Hrest. apply Add_spec in Hadd as [Hc _].
        destruct r; congruence.
    + by apply IH.
Qed.

(** What a successful second loop adds to the rename-tracking sets and
    to the watcher. *)
Lemma watch_renames_state (env : Env) (userPaths : pathmap) (keys : list string)
    (w w' : watcher) (st st' : renameState) :
  watch_renames env userPaths keys w st = (w', Ok st') →
  (∀ p, get (rs_renameChildren st') p = true
        ↔ get (rs_renameChildren st) p = true
          ∨ (p ∈ keys ∧ userPaths !! filepath.Dir p = None))
  ∧ (∀ d, get (rs_renameDirs st') d = true
          ↔ get (rs_renameDirs st) d = true
            ∨ ∃ p, p ∈ keys ∧ filepath.Dir p = d ∧ userPaths !! d = None)
  ∧ ∃ ds, added w' = added w ++ ds ∧ NoDup ds
          ∧ ∀ d, d ∈ ds ↔ get (rs_renameDirs st) d = false
                          ∧ get (rs_renameDirs st') d = true.
Proof.
  revert w st. induction keys as [|fullPath rest IH]; intros w st; simpl.
  - intros [= <- <-]. split_and!.
    + intros p. split; [by left|]. by intros [?|[?%elem_of_nil _]].
    + intros d. split; [by left|]. by intros [?|(? & ?%elem_of_nil & _)].
    + exists []. split_and!; [by rewrite app_nil_r|constructor|].
      intros d. split; [by intros ?%elem_of_nil|]. intros [? ?]. congruence.
  - rewrite rename_guard. set (D := filepath.Dir fullPath).
    destruct (bool_decide (userPaths !! D = None)) eqn:Hguard.
    + apply bool_decide_eq_true in Hguard.
      destruct (get (rs_renameDirs st) D) eqn:Hseen; simpl.
      * (* the parent is registered already *)
        intros Hrun. destruct (IH _ _ Hrun) as (Hch & Hdir & ds & Hadded & Hnd & Hds).
        cbn [rs_renameChildren rs_renameDirs rs_includedHiddenFiles] in *. split_and!.
        -- intros p. rewrite Hch, get_insert_true, elem_of_cons. split.
           ++ intros [[->|?]|[? ?]]; [right|by left|right]; by auto.
           ++ intros [?|[[->|?] ?]]; [left; by right|left; by left|right; done].
        -- intros d. rewrite Hdir, get_insert_true. split.
           ++ intros [[->|?]|(p & ? & ? & ?)]; [by left|by left|].
              right. exists p. by rewrite elem_of_cons; auto.
           ++ intros [?|(p & [->|?]%elem_of_cons & Hp & ?)].
              ** left. by right.
              ** left. left. done.
              ** right. by exists p.
        -- exists ds. split_and!; [done..|].
           intros d. rewrite Hds, get_insert_false. split; [tauto|].
           intros [Hf ?]. split_and!; [congruence|done..].
      * (* the parent is registered now *)
        destruct (Add env w D) as [w1 [err|]] eqn:Hadd; [done|].
        apply Add_spec in Hadd as [_ Hw1].
        intros Hrun. destruct (IH _ _ Hrun) as (Hch & Hdir & ds & Hadded & Hnd & Hds).
        cbn [rs_renameChildren rs_renameDirs rs_includedHiddenFiles] in *. split_and!.
        -- intros p. rewrite Hch, get_insert_true, elem_of_cons. split.
           ++ intros [[->|?]|[? ?]]; [right|by left|right]; by auto.
           ++ intros [?|[[->|?] ?]]; [left; by right|left; by left|right; done].
        -- intros d. rewrite Hdir, get_insert_true. split.
           ++ intros [[->|?]|(p & ? & ? & ?)].
              ** right. exists fullPath. by rewrite elem_of_cons; auto.
              ** by left.
              ** right. exists p. by rewrite elem_of_cons; auto.
           ++ intros [?|(p & [->|?]%elem_of_cons & Hp & ?)].
              ** left. by right.
              ** left. left. done.
              ** right. by exists p.
        -- exists (D :: ds). split_and!.
           ++ by rewrite Hadded, Hw1, <-app_assoc.
           ++ constructor; [|done]. rewrite Hds, get_insert_false. by intros [[? _] _].
           ++ intros d. rewrite elem_of_cons, Hds, get_insert_false. split.
              ** intros [->|[[_ Hf] ?]]; [|done].
                 split; [done|]. apply Hdir. left. apply get_insert_true. by left.
              ** intros [Hf Ht]. destruct (decide (d = D)) as [->|Hne]; [by left|].
                 by right.
    + apply bool_decide_eq_false in Hguard.
      intros Hrun. destruct (IH _ _ Hrun) as (Hch & Hdir & ds & Hadded & Hnd & Hds).
      cbn [rs_renameChildren rs_renameDirs rs_includedHiddenFiles] in *. split_and!.
      * intros p. rewrite Hch, elem_of_cons. split.
        -- intros [?|[? ?]]; [by left|right; by auto].
        -- intros [?|[[->|?] ?]]; [by left|done|by right].
      * intros d. rewrite Hdir. split.
        -- intros [?|(p & ? & ? & ?)]; [by left|].
           right. exists p. by rewrite elem_of_cons; auto.
        -- intros [?|(p & [->|?]%elem_of_cons & Hp & ?)]; [by left| |].
           ++ subst d. done.
           ++ right. by exists p.
      * by exists ds.
Qed.

(** ** [watch] as a whole *)

(** The stages a successful call went through. *)
Lemma watch_Ok (env : Env) (inputPaths ignoredPaths : list string)
    (userPaths : pathmap) :
  returned (watch env inputPaths ignoredPaths) = Ok userPaths →
  ∃ ui w1 w st,
    createUserIgnorer env ignoredPaths = Ok ui
    ∧ watch_inputs env ui inputPaths newWatcher ∅ = (w1, Ok userPaths)
    ∧ watch_renames env userPaths (Range env userPaths) w1
        {| rs_includedHiddenFiles := ∅; rs_renameDirs := ∅; rs_renameChildren := ∅ |}
      = (w, Ok st)
    ∧ watch env inputPaths ignoredPaths
      = {| returned := Ok userPaths; watcher_state := Some w;
           dispatch_task :=
             Some {| includedHiddenFiles := rs_includedHiddenFiles st; ui := ui;
                     renameDirs := rs_renameDirs st;
                     renameChildren := rs_renameChildren st |} |}.
Proof.
  unfold watch.
  destruct (createUserIgnorer env ignoredPaths) as [ui|msg]; [|done].
  destruct (NewWatcherErr env); [done|].
  destruct (watch_inputs env ui inputPaths newWatcher ∅) as [w1 [up|msg]] eqn:Hin;
    [|done].
  destruct (watch_renames env up (Range env up) w1 _) as [w [st|msg]] eqn:Hren;
    [|done].
  simpl. intros [= ->]. by exists ui, w1, w, st.
Qed.

Lemma range_ok_elem_of (env : Env) (m : pathmap) (p : string) :
  range_ok env → p ∈ Range env m ↔ is_Some (m !! p).
Proof.
  intros Hrange. rewrite (Hrange m), list_elem_of_fmap. split.
  - intros ([k v] & -> & Hkv). apply elem_of_map_to_list in Hkv. by eexists.
  - intros [v Hv]. exists (p, v). split; [done|]. by apply elem_of_map_to_list.
Qed.

(** C3. When [watch] succeeds: a path is in [renameChildren] exactly
    when it is a key of the returned map whose parent directory is not a
    key of that map; the parent directory of every path of
    [renameChildren] is in [renameDirs]; every directory of [renameDirs]
    is registered with the watcher, and no path at all is registered
    twice. *)
Theorem rename_tracking_state (env : Env) (inputPaths ignoredPaths : list string)
    (userPaths : pathmap) (w : watcher) (ig : smartIgnorer) :
  range_ok env →
  returned (watch env inputPaths ignoredPaths) = Ok userPaths →
  watcher_state (watch env inputPaths ignoredPaths) = Some w →
  dispatch_task (watch env inputPaths ignoredPaths) = Some ig →
  (∀ p, get (renameChildren ig) p = true
        ↔ is_Some (userPaths !! p) ∧ userPaths !! filepath.Dir p = None)
  ∧ (∀ p, get (renameChildren ig) p = true →
          get (renameDirs ig) (filepath.Dir p) = true)
  ∧ (∀ d, get (renameDirs ig) d = true → d ∈ added w)
  ∧ NoDup (added w).
Proof.
  intros Hrange Hret Hw Hig.
  destruct (watch_Ok _ _ _ _ Hret) as (ui & w1 & w2 & st & _ & Hin & Hren & Heq).
  rewrite Heq in Hw, Hig. simpl in Hw, Hig. injection Hw as <-. injection Hig as <-.
  simpl.
  apply watch_inputs_registered_keys in Hin as [Hnd1 Hkeys].
  2:{ split; [constructor|]. intros p. simpl. rewrite lookup_empty.
      split; [by intros ?%elem_of_nil|by intros [? ?]]. }
  apply watch_renames_state in Hren as (Hch & Hdir & ds & Hadded & Hnd & Hds).
  simpl in Hch, Hdir, Hds.
  assert (∀ p, get (rs_renameChildren st) p = true
               ↔ is_Some (userPaths !! p) ∧ userPaths !! filepath.Dir p = None) as Hch'.
  { intros p. rewrite Hch, get_empty, (range_ok_elem_of _ _ _ Hrange).
    split; [by intros [?|?]|by right]. }
  split_and!.
  - done.
  - intros p [Hp Hnone]%Hch'. apply Hdir. right. exists p.
    by rewrite (range_ok_elem_of _ _ _ Hrange).
  - intros d Hd. rewrite Hadded, elem_of_app. right. apply Hds.
    by rewrite get_empty.
  - rewrite Hadded. apply NoDup_app. split_and!; [done| |done].
    intros d Hd1 [_ Hd2]%Hds. apply Hkeys in Hd1 as [v Hv].
    apply Hdir in Hd2 as [Hd2|(p & _ & _ & Hnone)]; [by rewrite get_empty in Hd2|].
    congruence.
Qed.

Lemma example_env_range_ok : range_ok example_env.
Proof. by intros m. Qed.

Lemma rename_tracking_state_witness :
  get (renameChildren example_ignorer) "/tmp/proj/file.txt" = true
  ∧ NoDup (added example_watcher).
Proof.
  assert (returned (watch example_env ["/tmp/proj/file.txt"] []) = Ok example_userPaths)
    as Hret by (vm_compute; reflexivity).
  assert (watcher_state (watch example_env ["/tmp/proj/file.txt"] [])
          = Some example_watcher) as Hw by (vm_compute; reflexivity).
  assert (dispatch_task (watch example_env ["/tmp/proj/file.txt"] [])
          = Some example_ignorer) as Hig by (vm_compute; reflexivity).
  pose proof (rename_tracking_state example_env ["/tmp/proj/file.txt"] []
                example_userPaths example_watcher example_ignorer
                example_env_range_ok Hret Hw Hig) as (Hch & _ & _ & Hnd).
  split; [|exact Hnd]. apply Hch. split.
  - exists (Some [Byte.x68; Byte.x69]). vm_compute. reflexivity.
  - vm_compute. reflexivity.
Defined.

(** C7. When [watch] returns an error after the watcher was created,
    the watcher is closed and no dispatch task was started. *)
Theorem watch_error_closes_watcher (env : Env) (inputPaths ignoredPaths : list string)
    (msg : string) (w : watcher) :
  returned (watch env inputPaths ignoredPaths) = Err msg →
  watcher_state (watch env inputPaths ignoredPaths) = Some w →
  closed w = true ∧ dispatch_task (watch env inputPaths ignoredPaths) = None.
Proof.
  unfold watch.
  destruct (createUserIgnorer env ignoredPaths) as [ui|msg0]; [|done].
  destruct (NewWatcherErr env); [done|].
  destruct (watch_inputs env ui inputPaths newWatcher ∅) as [w1 [up|msg1]] eqn:Hin.
  - destruct (watch_renames env up (Range env up) w1 _) as [w2 [st|msg2]] eqn:Hren;
      [done|].
    simpl. intros _ [= <-]. by apply watch_renames_closed in Hren.
  - simpl. intros _ [= <-]. by apply watch_inputs_closed in Hin.
Qed.

Lemma watch_error_closes_watcher_witness :
  closed {| added := ["/tmp/proj/file.txt"]; closed := true |} = true
  ∧ dispatch_task (watch example_env ["/tmp/proj/file.txt"; "/gone/x"] []) = None.
Proof.
  apply (watch_error_closes_watcher example_env ["/tmp/proj/file.txt"; "/gone/x"] []
           "unable to watch '/gone/x': no such file or directory").
  - vm_compute. reflexivity.
  - vm_compute. reflexivity.
Defined.

(** ** The parent directory of a resolved path *)

Lemma upto_last_separator_append (a e : string) :
  has_sep e = false →
  filepath.upto_last_separator (a +:+ String "/" e) = a +:+ "/".
Proof.
  intros He. induction a as [|c a IH].
  - rewrite !append_nil_l. simpl.
    assert (filepath.upto_last_separator e = "") as ->; [|done].
    induction e as [|d e IHe]; [done|].
    simpl in He. apply orb_false_iff in He as [Hd He].
    simpl. by rewrite Hd, (IHe He).
  - rewrite !append_cons. simpl. rewrite IH.
    destruct (filepath.IsPathSeparator c); [done|].
    by destruct a.
Qed.

Lemma join_snoc (es : list string) (e : string) :
  es ≠ [] → filepath.join (es ++ [e]) = filepath.join es +:+ String "/" e.
Proof.
  induction es as [|x es IH]; [done|]. intros _.
  destruct es as [|y es]; [done|].
  change (filepath.join ((x :: y :: es) ++ [e]))
    with (x +:+ String "/" (filepath.join ((y :: es) ++ [e]))).
  rewrite IH by done.
  change (filepath.join (x :: y :: es))
    with (x +:+ String "/" (filepath.join (y :: es))).
  by rewrite append_assoc, append_cons.
Qed.

Lemma clean_elems_app (rooted : bool) (out a b : list string) :
  filepath.clean_elems rooted out (a ++ b)
  = filepath.clean_elems rooted (filepath.clean_elems rooted out a) b.
Proof.
  revert out. induction a as [|e a IH]; intros out; simpl; [done|].
  destruct (decide (e = "" ∨ e = ".")); [done|].
  destruct (decide (e = "..")); [|done].
  destruct out as [|top out]; [by destruct rooted|].
  by destruct (decide (top = "..")).
Qed.

(** Cleaning a separator followed by elements without separators. *)
Lemma Clean_rooted_join (xs : list string) :
  xs ≠ [] → Forall (λ e, has_sep e = false) xs →
  filepath.Clean (String "/" (filepath.join xs))
  = String "/" (filepath.join (rev (filepath.clean_elems true [] xs))).
Proof.
  intros Hne Hxs. unfold filepath.Clean. rewrite decide_False by done.
  assert (filepath.IsAbs (String "/" (filepath.join xs)) = true) as -> by done.
  assert (filepath.split (String "/" (filepath.join xs)) = "" :: xs) as ->.
  { change (filepath.split (String "/" (filepath.join xs)))
      with ("" :: filepath.split (filepath.join xs)).
    by rewrite split_join. }
  assert (filepath.clean_elems true [] ("" :: xs) = filepath.clean_elems true [] xs)
    as -> by done.
  cbv zeta. by rewrite decide_False.
Qed.

(** [Dir] drops the last element of a resolved path. *)
Lemma Dir_canonical (es : list string) (e : string) :
  Forall real es → real e →
  filepath.Dir (String "/" (filepath.join (es ++ [e]))) = String "/" (filepath.join es).
Proof.
  intros Hes He. unfold filepath.Dir.
  assert (has_sep e = false) as Hsep by apply He.
  destruct es as [|x es].
  - change (filepath.join ([] ++ [e])) with e.
    change (String "/" e) with ("" +:+ String "/" e).
    by rewrite (upto_last_separator_append _ _ Hsep).
  - rewrite join_snoc by done.
    rewrite <-append_cons, (upto_last_separator_append _ _ Hsep), append_cons.
    change "/" with (String "/" "").
    rewrite <-(join_snoc (x :: es) "") by done.
    rewrite Clean_rooted_join.
    + rewrite clean_elems_app, (clean_elems_real true [] (x :: es)) by done.
      assert (filepath.clean_elems true (rev (x :: es) ++ []) [""]
              = rev (x :: es) ++ []) as -> by done.
      by rewrite app_nil_r, rev_involutive.
    + done.
    + apply Forall_app. split; [by apply real_no_sep|by repeat constructor].
Qed.

(** A resolved path other than the root lies below its parent. *)
Lemma Dir_descendant (es : list string) :
  Forall real es → es ≠ [] →
  descendant (filepath.Dir (String "/" (filepath.join es))) (String "/" (filepath.join es)).
Proof.
  intros Hes Hne. destruct es as [|e es _] using rev_ind; [done|].
  apply Forall_app in Hes as [Hes [He _]%Forall_cons].
  rewrite Dir_canonical by done. exists e.
  destruct es as [|x es].
  - right. done.
  - left. rewrite join_snoc by done. by rewrite append_cons.
Qed.

(** With the two sets as [createUserIgnorer] builds them, a path whose
    parent directory is flagged is flagged as well. *)
Lemma parent_flagged (env : Env) (u : userIgnorer) (k : string) (es : list string) :
  ignorer_inv env (ignored u) (ignoredDirs u) →
  Forall real es → k = String "/" (filepath.join es) →
  userIgnorer_IsIgnored env u (filepath.Dir k) = true →
  userIgnorer_IsIgnored env u k = true.
Proof.
  intros Hinv Hes -> Hdir.
  destruct es as [|e es _] using rev_ind; [done|].
  pose proof (Dir_descendant (es ++ [e]) Hes ltac:(by destruct es)) as Hdesc.
  apply Forall_app in Hes as [Hes [He _]%Forall_cons].
  rewrite Dir_canonical in Hdir, Hdesc by done.
  set (k := String "/" (filepath.join (es ++ [e]))) in *.
  set (d := String "/" (filepath.join es)) in *.
  apply userIgnorer_IsIgnored_spec in Hdir as (d' & Hd & Hflag).
  assert (d' = d) as ->.
  { unfold filepath.Abs, d in Hd. simpl in Hd. rewrite Clean_canonical in Hd by done.
    by injection Hd. }
  apply userIgnorer_IsIgnored_spec. exists k. split.
  { unfold filepath.Abs, k. simpl. rewrite Clean_canonical; [done|].
    apply Forall_app. split; [done|by constructor]. }
  right. destruct Hflag as [Hex|(dir & Hin & Hpre)].
  - exists (dirPrefix d). split; [by apply Hinv|by apply dirPrefix_descendant].
  - exists dir. split; [done|]. eapply HasPrefix_trans; [|exact Hpre].
    destruct Hdesc as [rest [->|[_ ->]]]; apply HasPrefix_append.
Qed.

(** Whatever the second loop registers is the parent directory of one of
    the keys it walks. *)
Lemma watch_renames_added (env : Env) (userPaths : pathmap) (keys : list string)
    (w w' : watcher) (st : renameState) (r : result renameState) :
  watch_renames env userPaths keys w st = (w', r) →
  ∀ p, p ∈ added w' → p ∈ added w ∨ ∃ k, k ∈ keys ∧ p = filepath.Dir k.
Proof.
  revert w st. induction keys as [|fullPath rest IH]; intros w st; simpl.
  - intros [= <- <-] p Hp. by left.
  - assert (∀ w1 st1, watch_renames env userPaths rest w1 st1 = (w', r) →
              (∀ p, p ∈ added w1 → p ∈ added w ∨ p = filepath.Dir fullPath) →
              ∀ p, p ∈ added w' →
                p ∈ added w ∨ ∃ k, k ∈ fullPath :: rest ∧ p = filepath.Dir k) as Hstep.
    { intros w1 st1 Hrun Hw1 p Hp.
      destruct (IH _ _ Hrun p Hp) as [Hin|(k & Hk & ->)].
      - destruct (Hw1 p Hin) as [?| ->]; [by left|].
        right. exists fullPath. split; [by left|done].
      - right. exists k. split; [by right|done]. }
    destruct (negb (found userPaths (filepath.Dir fullPath)) && _).
    2:{ intros Hrun. eapply Hstep; [exact Hrun|]. by left. }
    destruct (negb (get (rs_renameDirs st) (filepath.Dir fullPath))).
    2:{ intros Hrun. eapply Hstep; [exact Hrun|]. by left. }
    destruct (Add env w (filepath.Dir fullPath)) as [w1 [err|]] eqn:Hadd;
      apply Add_spec in Hadd as [_ Hw1].
    + intros [= <- <-] p Hp. left. simpl in Hp. by rewrite Hw1 in Hp.
    + intros Hrun. eapply Hstep; [exact Hrun|].
      intros p. rewrite Hw1, elem_of_app, list_elem_of_singleton. tauto.
Qed.

(** No call of [watch] registers a path that the user ignorer flags. *)
Lemma watch_registers_unflagged (env : Env) (inputPaths ignoredPaths : list string)
    (u : userIgnorer) (w : watcher) :
  getwd_rooted env → range_ok env →
  createUserIgnorer env ignoredPaths = Ok u →
  watcher_state (watch env inputPaths ignoredPaths) = Some w →
  ∀ p, p ∈ added w → userIgnorer_IsIgnored env u p = false.
Proof.
  intros Hwd Hrange Hu. unfold watch. rewrite Hu.
  pose proof (createUserIgnorer_inv _ _ _ Hu) as Hinv.
  assert (∀ p, (∃ path, filepath.Abs (Getwd env) path = Some p
                        ∧ userIgnorer_IsIgnored env u path = false) →
               userIgnorer_IsIgnored env u p = false) as Hres.
  { intros p (path & Hp & Hflag). rewrite <-Hflag.
    apply userIgnorer_IsIgnored_resolved. rewrite Hp. by eapply Abs_idem. }
  destruct (NewWatcherErr env); [done|].
  destruct (watch_inputs env u inputPaths newWatcher ∅) as [w1 r1] eqn:Hin.
  destruct (watch_inputs_unflagged _ _ _ _ _ _ _ Hin) as [Hadd1 Hkeys1].
  assert (∀ p, p ∈ added w1 → userIgnorer_IsIgnored env u p = false) as Hw1.
  { intros p Hp. destruct (Hadd1 p Hp) as [?%elem_of_nil|(path & _ & ? & ?)]; [done|].
    apply Hres. by exists path. }
  destruct r1 as [up|msg]; [|by intros [= <-]].
  destruct (watch_renames env up (Range env up) w1 _) as [w2 r2] eqn:Hren.
  assert (∀ p, p ∈ added w2 → userIgnorer_IsIgnored env u p = false) as Hw2.
  { intros p Hp.
    destruct (watch_renames_added _ _ _ _ _ _ _ Hren p Hp) as [?|(k & Hk & ->)];
      [by apply Hw1|].
    apply (range_ok_elem_of _ _ _ Hrange) in Hk.
    destruct (Hkeys1 up k eq_refl Hk) as [Hk0|(path & _ & Habs & Hflag)].
    { rewrite lookup_empty in Hk0. by destruct Hk0. }
    destruct (Abs_form _ _ _ Hwd Habs) as (es & Hes & Hform).
    destruct (userIgnorer_IsIgnored env u (filepath.Dir k)) eqn:Hdir; [|done].
    rewrite <-(Hres k); [|by exists path].
    symmetry. by eapply parent_flagged. }
  destruct r2; by intros [= <-].
Qed.

(** C5. An input path whose resolved form is already a key of
    [userPaths], or which the user ignorer flags, is skipped: the loop
    goes on with the same watcher and the same map, and without an
    error from this path.  A flagged path is registered by no call of
    [watch], neither as a user path nor as a parent directory, and is no
    key of the returned map; and a path that resolves to an entry of the
    ignore list, or below one, is flagged. *)
Theorem watch_skips_present_and_ignored (env : Env) (ignoredPaths : list string)
    (u : userIgnorer) :
  getwd_rooted env → range_ok env →
  createUserIgnorer env ignoredPaths = Ok u →
  (∀ path rest w userPaths fullPath,
     filepath.Abs (Getwd env) path = Some fullPath →
     is_Some (userPaths !! fullPath)
     ∨ IsIgnored (Ignorer := userIgnorer_Ignorer env) u path = true →
     watch_inputs env u (path :: rest) w userPaths
     = watch_inputs env u rest w userPaths)
  ∧ (∀ inputPaths path fullPath,
       filepath.Abs (Getwd env) path = Some fullPath →
       IsIgnored (Ignorer := userIgnorer_Ignorer env) u path = true →
       (∀ w, watcher_state (watch env inputPaths ignoredPaths) = Some w →
             fullPath ∉ added w)
       ∧ (∀ userPaths, returned (watch env inputPaths ignoredPaths) = Ok userPaths →
                       userPaths !! fullPath = None))
  ∧ (∀ entry e path fullPath,
       entry ∈ ignoredPaths → String.length (TrimSpace env entry) ≠ 0%nat →
       filepath.Abs (Getwd env) (TrimSpace env entry) = Some e →
       filepath.Abs (Getwd env) path = Some fullPath →
       fullPath = e ∨ descendant e fullPath →
       IsIgnored (Ignorer := userIgnorer_Ignorer env) u path = true).
Proof.
  intros Hwd Hrange Hu. unfold IsIgnored, userIgnorer_Ignorer.
  assert (∀ path fullPath, filepath.Abs (Getwd env) path = Some fullPath →
            userIgnorer_IsIgnored env u fullPath = userIgnorer_IsIgnored env u path)
    as Hres.
  { intros path fullPath Habs. apply userIgnorer_IsIgnored_resolved.
    rewrite Habs. by eapply Abs_idem. }
  split_and!.
  - intros path rest w userPaths fullPath Habs Hskip. simpl. rewrite Habs.
    assert (found userPaths fullPath || IsIgnored u path = true) as ->; [|done].
    apply orb_true_iff. rewrite found_true. done.
  - intros inputPaths path fullPath Habs Hflag. split.
    + intros w Hw Hin.
      pose proof (watch_registers_unflagged _ _ _ _ _ Hwd Hrange Hu Hw _ Hin) as Hno.
      rewrite (Hres _ _ Habs) in Hno. congruence.
    + intros userPaths Hret.
      destruct (watch_Ok _ _ _ _ Hret) as (u' & w1 & w2 & st & Hu' & Hin & _ & _).
      rewrite Hu in Hu'. injection Hu' as <-.
      destruct (watch_inputs_unflagged _ _ _ _ _ _ _ Hin) as [_ Hkeys].
      destruct (userPaths !! fullPath) as [d|] eqn:Hlook; [|done].
      destruct (Hkeys userPaths fullPath eq_refl) as [Hk0|(path' & _ & Habs' & Hflag')].
      * by eexists.
      * rewrite lookup_empty in Hk0. by destruct Hk0.
      * rewrite <-(Hres _ _ Habs'), (Hres _ _ Habs) in Hflag'. congruence.
  - intros entry e path fullPath Hentry Hlen He Habs Hunder.
    destruct (createUserIgnorer_loop_entries _ _ _ _ _ Hu) as [_ Hent].
    pose proof (Hent entry e Hentry Hlen He) as Hexact.
    destruct Hunder as [->|Hdesc].
    + apply userIgnorer_IsIgnored_spec. exists e. split; [done|by left].
    + pose proof (createUserIgnorer_inv _ _ _ Hu) as Hinv.
      destruct (ignorer_inv_covers env u e Hwd Hinv Hexact) as [_ Hbelow].
      by apply (Hbelow path fullPath).
Qed.

Lemma watch_skips_present_and_ignored_witness :
  watch_inputs example_env
    {| ignored := {["/tmp/proj/secret" := true]}; ignoredDirs := ["/tmp/proj/secret/"] |}
    ["/tmp/proj/secret/data.bin"; "/tmp/proj/file.txt"] newWatcher ∅
  = watch_inputs example_env
      {| ignored := {["/tmp/proj/secret" := true]}; ignoredDirs := ["/tmp/proj/secret/"] |}
      ["/tmp/proj/file.txt"] newWatcher ∅.
Proof.
  refine (proj1 (watch_skips_present_and_ignored example_env ["/tmp/proj/secret"] _
            example_env_getwd_rooted example_env_range_ok _)
            "/tmp/proj/secret/data.bin" ["/tmp/proj/file.txt"] newWatcher ∅
            "/tmp/proj/secret/data.bin" _ _).
  - vm_compute. reflexivity.
  - reflexivity.
  - right. vm_compute. reflexivity.
Defined.

(** * Further properties of the code *)

(** ** [digest] *)

(** X1. A fingerprint is never partial and never comes with an error:
    when [digest] returns a fingerprint, the error is nil, the path is a
    regular file of at most 20 MiB, and the fingerprint is the sum of
    its whole content. *)
Theorem digest_fingerprint_whole_content (env : Env) (path : string)
    (h : list byte) (err : option string) :
  digest env path = (Some h, err) →
  err = None
  ∧ ∃ content readErr,
      Open env path = Regular content readErr
      ∧ (N.of_nat (length content) ≤ maxHashedFileSize)%N
      ∧ h = Sum256 env content.
Proof.
  unfold digest. destruct (Open env path) as [e|e| |content readErr]; [done..|].
  destruct (read_limited maxHashedFileSize content) as [hashed rest] eqn:Hrd.
  destruct (read_limited_rest _ _ _ _ Hrd) as (-> & Hle & _).
  destruct (if (N.of_nat (length hashed) <? maxHashedFileSize)%N then readErr else None);
    [done|].
  destruct rest as [|b rest]; [|done].
  intros [= <- <-]. split; [done|]. exists (hashed ++ []), readErr.
  rewrite app_nil_r. done.
Qed.

Lemma digest_fingerprint_whole_content_witness :
  @None string = None
  ∧ ∃ content readErr,
      Open example_env "/tmp/proj/file.txt" = Regular content readErr
      ∧ (N.of_nat (length content) ≤ maxHashedFileSize)%N
      ∧ [Byte.x68; Byte.x69] = Sum256 example_env content.
Proof.
  apply (digest_fingerprint_whole_content example_env "/tmp/proj/file.txt").
  vm_compute. reflexivity.
Defined.

(** X2. [digest] returns an error exactly when the file cannot be
    opened, cannot be examined, or fails to read before 20 MiB have been
    delivered; the error is the one it met.  A read error that lies at
    or beyond the cap is never reported. *)
Theorem digest_error_iff (env : Env) (path : string) (err : string) :
  (digest env path).2 = Some err
  ↔ Open env path = OpenFails err
    ∨ Open env path = StatFails err
    ∨ ∃ content,
        Open env path = Regular content (Some err)
        ∧ (N.of_nat (length content) < maxHashedFileSize)%N.
Proof.
  unfold digest. destruct (Open env path) as [e|e| |content readErr] eqn:Hopen; simpl.
  - split; [intros [= ->]; by left|].
    intros [[= ->]|[?|(? & ? & _)]]; done.
  - split; [intros [= ->]; right; by left|].
    intros [?|[[= ->]|(? & ? & _)]]; done.
  - split; [done|]. intros [?|[?|(? & ? & _)]]; done.
  - destruct (read_limited maxHashedFileSize content) as [hashed rest] eqn:Hrd.
    destruct (read_limited_rest _ _ _ _ Hrd) as (-> & Hle & Heq).
    destruct (N.ltb_spec (N.of_nat (length hashed)) maxHashedFileSize) as [Hlt|Hge].
    + assert (rest = []) as ->.
      { destruct rest; [done|]. specialize (Heq ltac:(done)). lia. }
      rewrite app_nil_r. destruct readErr as [e|]; simpl.
      * split; [intros [= ->]; right; right; by exists hashed|].
        intros [?|[?|(c & [= <- <-] & _)]]; done.
      * split; [done|]. intros [?|[?|(c & ? & _)]]; done.
    + split.
      * by destruct rest.
      * intros [?|[?|(c & [= <- <-] & Hlen)]]; [done..|].
        rewrite length_app, Nat2N.inj_add in Hlen. lia.
Qed.

(** ** [createUserIgnorer] *)

Lemma Abs_None (getwd : option string) (path : string) :
  filepath.Abs getwd path = None ↔ getwd = None ∧ filepath.IsAbs path = false.
Proof.
  unfold filepath.Abs. destruct (filepath.IsAbs path), getwd; split; try done.
  all: by intros [? ?].
Qed.

Lemma nonblank_false (env : Env) (x : string) :
  nonblank env x = false ↔ String.length (TrimSpace env x) = 0%nat.
Proof.
  unfold nonblank. rewrite negb_false_iff. apply bool_decide_eq_true.
Qed.

Lemma nonblank_true (env : Env) (x : string) :
  nonblank env x = true ↔ String.length (TrimSpace env x) ≠ 0%nat.
Proof.
  unfold nonblank. rewrite negb_true_iff. apply bool_decide_eq_false.
Qed.

Lemma createUserIgnorer_loop_filter (env : Env) (ignoredPaths : list string)
    (ignored0 : gmap string bool) (dirs0 : list string) :
  createUserIgnorer_loop env ignoredPaths ignored0 dirs0
  = createUserIgnorer_loop env (List.filter (nonblank env) ignoredPaths) ignored0 dirs0.
Proof.
  revert ignored0 dirs0.
  induction ignoredPaths as [|x rest IH]; intros ignored0 dirs0; [done|].
  cbn [List.filter createUserIgnorer_loop].
  destruct (decide (String.length (TrimSpace env x) = 0%nat)) as [Hb|Hb].
  - apply nonblank_false in Hb as ->. apply IH.
  - pose proof Hb as Hnb. apply nonblank_true in Hnb as ->.
    cbn [createUserIgnorer_loop]. rewrite decide_False by done.
    destruct (filepath.Abs (Getwd env) (TrimSpace env x)); [apply IH|done].
Qed.

(** X3. Entries of the ignore list that are blank once trimmed count for
    nothing: the ignorer built from a list is the one built from its
    entries that are not blank, with the same error if there is one; and
    a list of blank entries, like the empty list, gives the ignorer with
    two empty sets, whatever the working directory. *)
Theorem createUserIgnorer_skips_blank (env : Env) (ignoredPaths : list string) :
  createUserIgnorer env ignoredPaths
  = createUserIgnorer env (List.filter (nonblank env) ignoredPaths)
  ∧ ((∀ x, x ∈ ignoredPaths → nonblank env x = false) →
     createUserIgnorer env ignoredPaths = Ok {| ignored := ∅; ignoredDirs := [] |}).
Proof.
  split; [apply createUserIgnorer_loop_filter|].
  intros Hblank. unfold createUserIgnorer. rewrite createUserIgnorer_loop_filter.
  assert (List.filter (nonblank env) ignoredPaths = []) as ->; [|done].
  induction ignoredPaths as [|x rest IH]; [done|]. cbn [List.filter].
  rewrite (Hblank x) by (by left). apply IH. intros y Hy. apply Hblank. by right.
Qed.

Lemma createUserIgnorer_loop_Err (env : Env) (ignoredPaths : list string)
    (ignored0 : gmap string bool) (dirs0 : list string) (msg : string) :
  createUserIgnorer_loop env ignoredPaths ignored0 dirs0 = Err msg
  ↔ msg = ignored_paths_error
    ∧ ∃ x, x ∈ ignoredPaths ∧ nonblank env x = true
           ∧ filepath.Abs (Getwd env) (TrimSpace env x) = None.
Proof.
  revert ignored0 dirs0.
  induction ignoredPaths as [|x rest IH]; intros ignored0 dirs0;
    cbn [createUserIgnorer_loop].
  - split; [done|]. by intros (_ & x & ?%elem_of_nil & _).
  - destruct (decide (String.length (TrimSpace env x) = 0%nat)) as [Hb|Hb].
    + rewrite IH. apply nonblank_false in Hb. split.
      * intros (-> & y & Hy & ? & ?). split; [done|]. exists y. by rewrite elem_of_cons; auto.
      * intros (-> & y & [->|Hy]%elem_of_cons & Hnb & ?); [congruence|].
        split; [done|]. by exists y.
    + apply nonblank_true in Hb.
      destruct (filepath.Abs (Getwd env) (TrimSpace env x)) as [p|] eqn:Habs.
      * rewrite IH. split.
        -- intros (-> & y & Hy & ? & ?). split; [done|].
           exists y. by rewrite elem_of_cons; auto.
        -- intros (-> & y & [->|Hy]%elem_of_cons & Hnb & ?); [congruence|].
           split; [done|]. by exists y.
      * split.
        -- intros [= <-]. split; [done|]. exists x. by rewrite elem_of_cons; auto.
        -- by intros (-> & _).
Qed.

(** X4. [createUserIgnorer] fails exactly when there is no working
    directory and some entry that is not blank is a relative path;
    the error is always the same fixed message. *)
Theorem createUserIgnorer_fails_iff (env : Env) (ignoredPaths : list string)
    (msg : string) :
  createUserIgnorer env ignoredPaths = Err msg
  ↔ msg = ignored_paths_error
    ∧ Getwd env = None
    ∧ ∃ x, x ∈ ignoredPaths ∧ nonblank env x = true
           ∧ filepath.IsAbs (TrimSpace env x) = false.
Proof.
  unfold createUserIgnorer. rewrite createUserIgnorer_loop_Err. split.
  - intros (-> & x & Hx & Hnb & [Hwd Hrel]%Abs_None). split_and!; [done..|].
    by exists x.
  - intros (-> & Hwd & x & Hx & Hnb & Hrel). split; [done|].
    exists x. split_and!; [done..|]. by apply Abs_None.
Qed.

Lemma createUserIgnorer_loop_sets (env : Env) (ignoredPaths : list string)
    (ignored0 : gmap string bool) (dirs0 : list string) (u : userIgnorer) :
  createUserIgnorer_loop env ignoredPaths ignored0 dirs0 = Ok u →
  ∃ ps,
    Forall2 (λ x p, filepath.Abs (Getwd env) (TrimSpace env x) = Some p)
      (List.filter (nonblank env) ignoredPaths) ps
    ∧ ignoredDirs u = dirs0 ++ (dirPrefix <$> ps)
    ∧ ∀ p, get (ignored u) p = true ↔ get ignored0 p = true ∨ p ∈ ps.
Proof.
  revert ignored0 dirs0.
  induction ignoredPaths as [|x rest IH]; intros ignored0 dirs0;
    cbn [createUserIgnorer_loop List.filter].
  - intros [= <-]. exists []. split_and!; [constructor|by rewrite app_nil_r|].
    intros p. simpl. split; [by left|]. by intros [?|?%elem_of_nil].
  - destruct (decide (String.length (TrimSpace env x) = 0%nat)) as [Hb|Hb].
    + apply nonblank_false in Hb as ->. apply IH.
    + apply nonblank_true in Hb as ->.
      destruct (filepath.Abs (Getwd env) (TrimSpace env x)) as [path|] eqn:Habs;
        [|done].
      intros Hu. destruct (IH _ _ Hu) as (ps & Hps & Hdirs & Hset).
      exists (path :: ps). split_and!.
      * by constructor.
      * rewrite Hdirs, <-app_assoc. done.
      * intros p. rewrite Hset, get_insert_true, elem_of_cons. tauto.
Qed.

(** X5. What a successful [createUserIgnorer] holds: with the entries
    that are not blank resolved one by one, in order, the exact-match set
    is the set of the resolved paths, and the prefix list is the list of
    their directory-prefix forms, in the order of the entries and with
    their repetitions. *)
Theorem createUserIgnorer_sets (env : Env) (ignoredPaths : list string)
    (u : userIgnorer) :
  createUserIgnorer env ignoredPaths = Ok u →
  ∃ ps,
    Forall2 (λ x p, filepath.Abs (Getwd env) (TrimSpace env x) = Some p)
      (List.filter (nonblank env) ignoredPaths) ps
    ∧ ignoredDirs u = dirPrefix <$> ps
    ∧ ∀ p, get (ignored u) p = true ↔ p ∈ ps.
Proof.
  intros Hu. destruct (createUserIgnorer_loop_sets _ _ _ _ _ Hu) as (ps & Hps & Hd & Hs).
  exists ps. split_and!; [done..|].
  intros p. rewrite Hs, get_empty. split; [by intros [?|?]|by right].
Qed.

Lemma createUserIgnorer_sets_witness :
  ∃ ps,
    Forall2 (λ x p, filepath.Abs (Getwd example_env) (TrimSpace example_env x) = Some p)
      (List.filter (nonblank example_env) ["  "; " /tmp/proj/secret"]) ps
    ∧ ["/tmp/proj/secret/"] = dirPrefix <$> ps
    ∧ ∀ p, get {["/tmp/proj/secret" := true]} p = true ↔ p ∈ ps.
Proof.
  refine (createUserIgnorer_sets example_env ["  "; " /tmp/proj/secret"]
            {| ignored := {["/tmp/proj/secret" := true]};
               ignoredDirs := ["/tmp/proj/secret/"] |} _).
  vm_compute. reflexivity.
Defined.

Lemma dirPrefix_ends_with_separator (p : string) :
  strings.HasSuffix (dirPrefix p) "/" = true.
Proof.
  unfold dirPrefix. destruct (strings.HasSuffix p "/") eqn:Hsuf; simpl; [done|].
  apply HasSuffix_spec. by exists p.
Qed.

Lemma has_sep_append (a b : string) : has_sep (a +:+ b) = has_sep a || has_sep b.
Proof.
  induction a as [|c a IH]; [done|].
  rewrite append_cons. simpl. by rewrite IH, orb_assoc.
Qed.

Lemma has_sep_rev (s : string) : has_sep (String.rev s) = has_sep s.
Proof.
  induction s as [|c s IH]; [done|].
  change (String c s) with (String c "" +:+ s).
  rewrite string_rev_append, !has_sep_append, IH. apply orb_comm.
Qed.

(** A string that ends with an element of a path does not end with a
    separator. *)
Lemma element_last_no_separator (front e : string) :
  e ≠ "" → has_sep e = false → strings.HasSuffix (front +:+ e) "/" = false.
Proof.
  intros Hne Hsep. unfold strings.HasSuffix. rewrite string_rev_append.
  rewrite <-has_sep_rev in Hsep.
  destruct (String.rev e) as [|c r] eqn:Hrev.
  - exfalso. apply Hne. rewrite <-(string_rev_involutive e), Hrev. done.
  - simpl in Hsep. apply orb_false_iff in Hsep as [Hc _].
    rewrite append_cons. change (String.rev "/") with (String "/" ""). simpl.
    destruct (decide ("/"%char = c)) as [<-|]; done.
Qed.

(** A resolved path other than the root does not end with a separator. *)
Lemma canonical_no_trailing_separator (es : list string) :
  Forall real es → es ≠ [] →
  strings.HasSuffix (String "/" (filepath.join es)) "/" = false.
Proof.
  intros Hes Hne. destruct es as [|e es _] using rev_ind; [done|].
  apply Forall_app in Hes as [_ [(He & _ & _ & Hsep) _]%Forall_cons].
  destruct es as [|x es].
  - change (String "/" (filepath.join ([] ++ [e]))) with ("/" +:+ e).
    by apply element_last_no_separator.
  - rewrite join_snoc by done.
    change (String "/" (filepath.join (x :: es) +:+ String "/" e))
      with (String "/" (filepath.join (x :: es)) +:+ String "/" "" +:+ e).
    rewrite <-append_assoc. by apply element_last_no_separator.
Qed.

(** X6. Every prefix a successful [createUserIgnorer] records ends with
    a separator and is the directory-prefix form of a path of the
    exact-match set; with a rooted working directory, a path starts with
    a recorded prefix only if it lies below a path of the exact-match
    set (so ignoring [/a/b] does not touch [/a/bc]). *)
Theorem ignoredDirs_prefixes (env : Env) (ignoredPaths : list string)
    (u : userIgnorer) (dir : string) :
  createUserIgnorer env ignoredPaths = Ok u →
  dir ∈ ignoredDirs u →
  strings.HasSuffix dir "/" = true
  ∧ (∃ e, get (ignored u) e = true ∧ dir = dirPrefix e)
  ∧ (getwd_rooted env →
     ∀ full, strings.HasPrefix full dir = true →
       ∃ e, get (ignored u) e = true ∧ descendant e full).
Proof.
  intros Hu Hdir.
  destruct (createUserIgnorer_loop_sets _ _ _ _ _ Hu) as (ps & Hps & Hdirs & Hset0).
  assert (∀ p, get (ignored u) p = true ↔ p ∈ ps) as Hset.
  { intros p. rewrite Hset0, get_empty. split; [by intros [?|?]|by right]. }
  rewrite Hdirs in Hdir. apply list_elem_of_fmap in Hdir as (e & -> & He).
  split_and!.
  - apply dirPrefix_ends_with_separator.
  - exists e. by rewrite Hset.
  - intros Hwd full [rest ->]%HasPrefix_spec. exists e. split; [by apply Hset|].
    exists rest. unfold dirPrefix.
    destruct (strings.HasSuffix e "/") eqn:Hsuf; simpl.
    + right. split; [|done].
      destruct (createUserIgnorer_inv _ _ _ Hu e) as [[x Hx] _]; [by apply Hset|].
      destruct (Abs_form _ _ _ Hwd Hx) as (es & Hes & ->).
      destruct es as [|e0 es]; [done|].
      by rewrite canonical_no_trailing_separator in Hsuf.
    + left. by rewrite append_assoc.
Qed.

Lemma ignoredDirs_prefixes_witness :
  strings.HasSuffix "/tmp/proj/secret/" "/" = true
  ∧ (∃ e, get {["/tmp/proj/secret" := true]} e = true
          ∧ "/tmp/proj/secret/" = dirPrefix e)
  ∧ (getwd_rooted example_env →
     ∀ full, strings.HasPrefix full "/tmp/proj/secret/" = true →
       ∃ e, get {["/tmp/proj/secret" := true]} e = true ∧ descendant e full).
Proof.
  refine (ignoredDirs_prefixes example_env [" /tmp/proj/secret"]
            {| ignored := {["/tmp/proj/secret" := true]};
               ignoredDirs := ["/tmp/proj/secret/"] |} "/tmp/proj/secret/" _ _).
  - vm_compute. reflexivity.
  - apply list_elem_of_singleton. reflexivity.
Defined.

(** ** [watch] *)

Lemma watch_inputs_map (env : Env) (u : userIgnorer) (inputPaths : list string)
    (w w' : watcher) (userPaths userPaths' : pathmap) :
  watch_inputs env u inputPaths w userPaths = (w', Ok userPaths') →
  ∀ p d, userPaths' !! p = Some d
         ↔ userPaths !! p = Some d
           ∨ (userPaths !! p = None ∧ d = (digest env p).1
              ∧ ∃ path, path ∈ inputPaths ∧ filepath.Abs (Getwd env) path = Some p
                        ∧ userIgnorer_IsIgnored env u path = false).
Proof.
  revert w userPaths.
  induction inputPaths as [|path rest IH]; intros w userPaths; simpl.
  - intros [= <- <-] p d. split; [by left|].
    by intros [?|(_ & _ & ? & ?%elem_of_nil & _)].
  - destruct (filepath.Abs (Getwd env) path) as [fullPath|] eqn:Habs; [|done].
    destruct (found userPaths fullPath) eqn:Hfound; simpl.
    { intros Hrun p d. rewrite (IH _ _ Hrun). apply found_true in Hfound. split.
      - intros [?|(? & ? & x & ? & ? & ?)]; [by left|right].
        split_and!; [done..|]. exists x. by rewrite elem_of_cons; auto.
      - intros [?|(Hnone & ? & x & [->|?]%elem_of_cons & Hx & ?)]; [by left| |].
        + rewrite Habs in Hx. injection Hx as ->. rewrite Hnone in Hfound.
          by destruct Hfound.
        + right. split_and!; [done..|]. by exists x. }
    unfold IsIgnored, userIgnorer_Ignorer.
    destruct (userIgnorer_IsIgnored env u path) eqn:Hflag.
    { intros Hrun p d. rewrite (IH _ _ Hrun). split.
      - intros [?|(? & ? & x & ? & ? & ?)]; [by left|right].
        split_and!; [done..|]. exists x. by rewrite elem_of_cons; auto.
      - intros [?|(Hnone & ? & x & [->|?]%elem_of_cons & Hx & ?)]; [by left| |].
        + congruence.
        + right. split_and!; [done..|]. by exists x. }
    destruct (Add env w fullPath) as [w1 [err|]]; [done|].
    apply found_false in Hfound.
    intros Hrun p d. rewrite (IH _ _ Hrun).
    destruct (decide (fullPath = p)) as [->|Hne].
    + rewrite lookup_insert_eq. split.
      * intros [[= <-]|[? _]]; [|done]. right. split_and!; [done..|].
        exists path. by rewrite elem_of_cons; auto.
      * intros [?|(_ & -> & _)]; [congruence|by left].
    + rewrite lookup_insert_ne by done. split.
      * intros [?|(? & ? & x & ? & ? & ?)]; [by left|right].
        split_and!; [done..|]. exists x. by rewrite elem_of_cons; auto.
      * intros [?|(Hnone & ? & x & [->|?]%elem_of_cons & Hx & ?)]; [by left| |].
        -- congruence.
        -- right. split_and!; [done..|]. by exists x.
Qed.

(** X7. The map a successful [watch] returns: its keys are exactly the
    resolved forms of the input paths that the user ignorer does not
    flag, and each key is mapped to the fingerprint [digest] gives for
    it, with the error of [digest] dropped. *)
Theorem watch_returns_unflagged_inputs (env : Env) (inputPaths ignoredPaths : list string)
    (u : userIgnorer) (userPaths : pathmap) :
  createUserIgnorer env ignoredPaths = Ok u →
  returned (watch env inputPaths ignoredPaths) = Ok userPaths →
  ∀ p d, userPaths !! p = Some d
         ↔ d = (digest env p).1
           ∧ ∃ path, path ∈ inputPaths ∧ filepath.Abs (Getwd env) path = Some p
                     ∧ IsIgnored (Ignorer := userIgnorer_Ignorer env) u path = false.
Proof.
  intros Hu Hret p d.
  destruct (watch_Ok _ _ _ _ Hret) as (u' & w1 & w2 & st & Hu' & Hin & _ & _).
  rewrite Hu in Hu'. injection Hu' as <-.
  rewrite (watch_inputs_map _ _ _ _ _ _ _ Hin), lookup_empty. split.
  - by intros [?|(_ & ? & ?)].
  - intros [? ?]. by right.
Qed.

Lemma watch_returns_unflagged_inputs_witness :
  example_userPaths !! "/tmp/proj/file.txt" = Some (Some [Byte.x68; Byte.x69]).
Proof.
  apply (watch_returns_unflagged_inputs example_env ["/tmp/proj/file.txt"] []
           {| ignored := ∅; ignoredDirs := [] |} example_userPaths).
  - reflexivity.
  - vm_compute. reflexivity.
  - split; [vm_compute; reflexivity|].
    exists "/tmp/proj/file.txt". split_and!; [by left|reflexivity|reflexivity].
Defined.


(** The stages of a successful call, in terms of what it leaves. *)
Lemma watch_Ok_inv (env : Env) (inputPaths ignoredPaths : list string)
    (userPaths : pathmap) (w : watcher) (ig : smartIgnorer) :
  returned (watch env inputPaths ignoredPaths) = Ok userPaths →
  watcher_state (watch env inputPaths ignoredPaths) = Some w →
  dispatch_task (watch env inputPaths ignoredPaths) = Some ig →
  ∃ w1 st,
    createUserIgnorer env ignoredPaths = Ok (ui ig)
    ∧ watch_inputs env (ui ig) inputPaths newWatcher ∅ = (w1, Ok userPaths)
    ∧ watch_renames env userPaths (Range env userPaths) w1
        {| rs_includedHiddenFiles := ∅; rs_renameDirs := ∅; rs_renameChildren := ∅ |}
      = (w, Ok st)
    ∧ includedHiddenFiles ig = rs_includedHiddenFiles st
    ∧ renameDirs ig = rs_renameDirs st
    ∧ renameChildren ig = rs_renameChildren st.
Proof.
  intros Hret Hw Hig.
  destruct (watch_Ok _ _ _ _ Hret) as (u & w1 & w2 & st & Hu & Hin & Hren & Heq).
  rewrite Heq in Hw, Hig. simpl in Hw, Hig. injection Hw as <-. injection Hig as <-.
  by exists w1, st.
Qed.



(** X9. After a successful [watch], [renameDirs] holds exactly the
    parent directories of the keys of the returned map that are not keys
    themselves; and a key is in [renameChildren] exactly when its parent
    directory is in [renameDirs]. *)
Theorem renameDirs_are_unwatched_parents (env : Env)
    (inputPaths ignoredPaths : list string) (userPaths : pathmap) (w : watcher)
    (ig : smartIgnorer) :
  range_ok env →
  returned (watch env inputPaths ignoredPaths) = Ok userPaths →
  watcher_state (watch env inputPaths ignoredPaths) = Some w →
  dispatch_task (watch env inputPaths ignoredPaths) = Some ig →
  (∀ d, get (renameDirs ig) d = true
        ↔ userPaths !! d = None ∧ ∃ p, is_Some (userPaths !! p) ∧ filepath.Dir p = d)
  ∧ (∀ p, is_Some (userPaths !! p) →
          (get (renameChildren ig) p = true
           ↔ get (renameDirs ig) (filepath.Dir p) = true)).
Proof.
  intros Hrange Hret Hw Hig.
  destruct (watch_Ok_inv _ _ _ _ _ _ Hret Hw Hig)
    as (w1 & st & _ & _ & Hren & _ & -> & ->).
  apply watch_renames_state in Hren as (Hch & Hdir & _).
  cbn [rs_renameDirs rs_renameChildren] in Hch, Hdir.
  assert (∀ d, get (rs_renameDirs st) d = true
               ↔ userPaths !! d = None
                 ∧ ∃ p, is_Some (userPaths !! p) ∧ filepath.Dir p = d) as Hdir'.
  { intros d. rewrite Hdir, get_empty. split.
    - intros [?|(p & Hp & ? & ?)]; [done|]. split; [done|]. exists p.
      by rewrite <-(range_ok_elem_of _ _ _ Hrange).
    - intros (? & p & Hp & ?). right. exists p.
      by rewrite (range_ok_elem_of _ _ _ Hrange). }
  split; [done|].
  intros p Hp. rewrite Hch, Hdir', get_empty, (range_ok_elem_of _ _ _ Hrange). split.
  - intros [?|[_ ?]]; [done|]. split; [done|]. by exists p.
  - intros [? _]. by right.
Qed.

Lemma renameDirs_are_unwatched_parents_witness :
  get (renameDirs example_ignorer) "/tmp/proj" = true.
Proof.
  apply (proj1 (renameDirs_are_unwatched_parents example_env ["/tmp/proj/file.txt"] []
                  example_userPaths example_watcher example_ignorer
                  example_env_range_ok
                  ltac:(vm_compute; reflexivity) ltac:(vm_compute; reflexivity)
                  ltac:(vm_compute; reflexivity))).
  split; [vm_compute; reflexivity|].
  exists "/tmp/proj/file.txt". split; [|reflexivity].
  exists (Some [Byte.x68; Byte.x69]). vm_compute. reflexivity.
Defined.

(** X10. After a successful [watch], the paths registered with the
    watcher are exactly the keys of the returned map together with the
    directories of [renameDirs], and the watcher is not closed. *)
Theorem watch_registers_keys_and_renameDirs (env : Env)
    (inputPaths ignoredPaths : list string) (userPaths : pathmap) (w : watcher)
    (ig : smartIgnorer) :
  returned (watch env inputPaths ignoredPaths) = Ok userPaths →
  watcher_state (watch env inputPaths ignoredPaths) = Some w →
  dispatch_task (watch env inputPaths ignoredPaths) = Some ig →
  (∀ p, p ∈ added w ↔ is_Some (userPaths !! p) ∨ get (renameDirs ig) p = true)
  ∧ closed w = false.
Proof.
  intros Hret Hw Hig.
  destruct (watch_Ok_inv _ _ _ _ _ _ Hret Hw Hig)
    as (w1 & st & _ & Hin & Hren & _ & -> & _).
  pose proof (watch_inputs_closed _ _ _ _ _ _ _ Hin) as Hc1.
  pose proof (watch_renames_closed _ _ _ _ _ _ _ Hren) as Hc2.
  apply watch_inputs_registered_keys in Hin as [_ Hkeys].
  2:{ split; [constructor|]. intros p. simpl. rewrite lookup_empty.
      split; [by intros ?%elem_of_nil|by intros [? ?]]. }
  apply watch_renames_state in Hren as (_ & _ & ds & Hadded & _ & Hds).
  split; [|simpl in *; congruence].
  intros p. rewrite Hadded, elem_of_app, Hkeys, Hds. cbn [rs_renameDirs].
  rewrite get_empty. tauto.
Qed.

Lemma watch_registers_keys_and_renameDirs_witness :
  (∀ p, p ∈ added example_watcher
        ↔ is_Some (example_userPaths !! p) ∨ get (renameDirs example_ignorer) p = true)
  ∧ closed example_watcher = false.
Proof.
  apply (watch_registers_keys_and_renameDirs example_env ["/tmp/proj/file.txt"] []).
  - vm_compute. reflexivity.
  - vm_compute. reflexivity.
  - vm_compute. reflexivity.
Defined.

(** X11. The dispatch task is started exactly when [watch] succeeds, and
    it then gets the user ignorer built from the ignore list.  No
    watcher exists afterwards exactly when the ignore list could not be
    resolved, whose error is returned as it is, or when the watcher
    could not be created, whose error is returned behind the words
    [unable to create watcher: ]. *)
Theorem watch_start_and_early_failure (env : Env) (inputPaths ignoredPaths : list string) :
  (∀ ig, dispatch_task (watch env inputPaths ignoredPaths) = Some ig →
         createUserIgnorer env ignoredPaths = Ok (ui ig)
         ∧ ∃ userPaths, returned (watch env inputPaths ignoredPaths) = Ok userPaths)
  ∧ (∀ userPaths, returned (watch env inputPaths ignoredPaths) = Ok userPaths →
                  is_Some (dispatch_task (watch env inputPaths ignoredPaths)))
  ∧ (watcher_state (watch env inputPaths ignoredPaths) = None
     ↔ (∃ msg, createUserIgnorer env ignoredPaths = Err msg
               ∧ returned (watch env inputPaths ignoredPaths) = Err msg)
       ∨ (∃ u err, createUserIgnorer env ignoredPaths = Ok u
                   ∧ NewWatcherErr env = Some err
                   ∧ returned (watch env inputPaths ignoredPaths)
                     = Err ("unable to create watcher: " +:+ err))).
Proof.
  unfold watch.
  destruct (createUserIgnorer env ignoredPaths) as [u|msg0].
  2:{ split_and!; [done|done|]. split; [|done]. intros _. left. by exists msg0. }
  destruct (NewWatcherErr env) as [err|].
  { split_and!; [done|done|]. split; [|done]. intros _. right. by exists u, err. }
  destruct (watch_inputs env u inputPaths newWatcher ∅) as [w1 [up|msg1]].
  2:{ split_and!; [done|done|]. split; [done|]. by intros [(? & ? & _)|(? & ? & _ & ? & _)]. }
  destruct (watch_renames env up (Range env up) w1 _) as [w2 [st|msg2]].
  2:{ split_and!; [done|done|]. split; [done|]. by intros [(? & ? & _)|(? & ? & _ & ? & _)]. }
  split_and!.
  - intros ig [= <-]. split; [done|]. by eexists.
  - intros ? _. by eexists.
  - split; [done|]. by intros [(? & ? & _)|(? & ? & _ & ? & _)].
Qed.

Lemma watch_inputs_Err (env : Env) (u : userIgnorer) (inputPaths : list string)
    (w w' : watcher) (userPaths : pathmap) (msg : string) :
  watch_inputs env u inputPaths w userPaths = (w', Err msg) →
  (msg = watched_paths_error
   ∧ ∃ path, path ∈ inputPaths ∧ filepath.Abs (Getwd env) path = None)
  ∨ (∃ path fullPath err,
       path ∈ inputPaths ∧ filepath.Abs (Getwd env) path = Some fullPath
       ∧ AddErr env (added w') fullPath = Some err
       ∧ msg = "unable to watch '" +:+ path +:+ "': " +:+ err).
Proof.
  revert w userPaths.
  induction inputPaths as [|path rest IH]; intros w userPaths; simpl; [done|].
  assert (∀ w1 up1, watch_inputs env u rest w1 up1 = (w', Err msg) →
            (msg = watched_paths_error
             ∧ ∃ x, x ∈ path :: rest ∧ filepath.Abs (Getwd env) x = None)
            ∨ (∃ x fullPath err,
                 x ∈ path :: rest ∧ filepath.Abs (Getwd env) x = Some fullPath
                 ∧ AddErr env (added w') fullPath = Some err
                 ∧ msg = "unable to watch '" +:+ x +:+ "': " +:+ err)) as Hrest.
  { intros w1 up1 Hrun.
    destruct (IH _ _ Hrun) as [(-> & x & ? & ?)|(x & f & e & ? & ? & ? & ->)].
    - left. split; [done|]. exists x. by rewrite elem_of_cons; auto.
    - right. exists x, f, e. by rewrite elem_of_cons; auto. }
  destruct (filepath.Abs (Getwd env) path) as [fullPath|] eqn:Habs.
  2:{ intros [= <- <-]. left. split; [done|]. exists path. by rewrite elem_of_cons; auto. }
  destruct (found userPaths fullPath || IsIgnored u path); [by apply Hrest|].
  unfold Add. destruct (AddErr env (added w) fullPath) as [err|] eqn:Herr;
    [|by apply Hrest].
  intros [= <- <-]. right. exists path, fullPath, err.
  by rewrite elem_of_cons; auto.
Qed.

Lemma watch_renames_Err (env : Env) (userPaths : pathmap) (keys : list string)
    (w w' : watcher) (st : renameState) (msg : string) :
  watch_renames env userPaths keys w st = (w', Err msg) →
  ∃ k err,
    k ∈ keys ∧ userPaths !! filepath.Dir k = None
    ∧ AddErr env (added w') (filepath.Dir k) = Some err
    ∧ msg = "unable to watch rename-watched-only dir '" +:+ k +:+ "': " +:+ err.
Proof.
  revert w st. induction keys as [|fullPath rest IH]; intros w st;
    cbn [watch_renames]; [done|].
  assert (∀ w1 st1, watch_renames env userPaths rest w1 st1 = (w', Err msg) →
            ∃ k err,
              k ∈ fullPath :: rest ∧ userPaths !! filepath.Dir k = None
              ∧ AddErr env (added w') (filepath.Dir k) = Some err
              ∧ msg = "unable to watch rename-watched-only dir '" +:+ k +:+ "': " +:+ err)
    as Hrest.
  { intros w1 st1 Hrun. destruct (IH _ _ Hrun) as (k & e & ? & ? & ? & ->).
    exists k, e. by rewrite elem_of_cons; auto. }
  rewrite rename_guard.
  destruct (bool_decide (userPaths !! filepath.Dir fullPath = None)) eqn:Hguard;
    [|by apply Hrest].
  apply bool_decide_eq_true in Hguard.
  destruct (negb (get (rs_renameDirs st) (filepath.Dir fullPath))); [|by apply Hrest].
  unfold Add. destruct (AddErr env (added w) (filepath.Dir fullPath)) as [err|] eqn:Herr;
    [|by apply Hrest].
  intros [= <- <-]. exists fullPath, err. by rewrite elem_of_cons; auto.
Qed.

(** X12. Every error [watch] returns once the watcher exists has one of
    three causes, and its text names it: an input path that cannot be
    resolved; an input path whose registration the watcher refused, with
    the path as given and the error of the watcher; or a parent directory
    whose registration the watcher refused, where the text names the
    watched child, not the directory, before the error of the watcher. *)
Theorem watch_error_causes (env : Env) (inputPaths ignoredPaths : list string)
    (msg : string) (w : watcher) :
  returned (watch env inputPaths ignoredPaths) = Err msg →
  watcher_state (watch env inputPaths ignoredPaths) = Some w →
  (msg = watched_paths_error
   ∧ ∃ path, path ∈ inputPaths ∧ filepath.Abs (Getwd env) path = None)
  ∨ (∃ path fullPath err,
       path ∈ inputPaths ∧ filepath.Abs (Getwd env) path = Some fullPath
       ∧ AddErr env (added w) fullPath = Some err
       ∧ msg = "unable to watch '" +:+ path +:+ "': " +:+ err)
  ∨ (∃ child err,
       AddErr env (added w) (filepath.Dir child) = Some err
       ∧ msg = "unable to watch rename-watched-only dir '" +:+ child +:+ "': " +:+ err).
Proof.
  unfold watch.
  destruct (createUserIgnorer env ignoredPaths) as [u|msg0]; [|done].
  destruct (NewWatcherErr env); [done|].
  destruct (watch_inputs env u inputPaths newWatcher ∅) as [w1 [up|msg1]] eqn:Hin.
  - destruct (watch_renames env up (Range env up) w1 _) as [w2 [st|msg2]] eqn:Hren;
      [done|].
    simpl. intros [= <-] [= <-]. right. right.
    destruct (watch_renames_Err _ _ _ _ _ _ _ Hren) as (k & err & _ & _ & ? & ?).
    by exists k, err.
  - simpl. intros [= <-] [= <-].
    destruct (watch_inputs_Err _ _ _ _ _ _ _ Hin) as [?|?]; [by left|right; by left].
Qed.

Lemma watch_error_causes_witness :
  ∃ path fullPath err,
    path ∈ ["/tmp/proj/file.txt"; "/gone/x"]
    ∧ filepath.Abs (Getwd example_env) path = Some fullPath
    ∧ AddErr example_env ["/tmp/proj/file.txt"] fullPath = Some err
    ∧ "unable to watch '/gone/x': no such file or directory"
      = "unable to watch '" +:+ path +:+ "': " +:+ err.
Proof.
  destruct (watch_error_causes example_env ["/tmp/proj/file.txt"; "/gone/x"] []
              "unable to watch '/gone/x': no such file or directory"
              {| added := ["/tmp/proj/file.txt"]; closed := true |}
              ltac:(vm_compute; reflexivity) ltac:(vm_compute; reflexivity))
    as [[Hmsg _]|[Hadd|(child & err & _ & Hmsg)]].
  - discriminate Hmsg.
  - exact Hadd.
  - discriminate Hmsg.
Defined.

(** X13. [watch] succeeds whenever there is a working directory, the
    watcher can be created and it refuses no registration. *)
Theorem watch_succeeds (env : Env) (inputPaths ignoredPaths : list string) (wd : string) :
  Getwd env = Some wd →
  NewWatcherErr env = None →
  (∀ before path, AddErr env before path = None) →
  ∃ userPaths, returned (watch env inputPaths ignoredPaths) = Ok userPaths.
Proof.
  intros Hwd Hnew Hadd. unfold watch.
  destruct (createUserIgnorer env ignoredPaths) as [u|msg0] eqn:Hu.
  2:{ apply createUserIgnorer_loop_Err in Hu as (_ & x & _ & _ & [? _]%Abs_None).
      congruence. }
  rewrite Hnew.
  destruct (watch_inputs env u inputPaths newWatcher ∅) as [w1 [up|msg1]] eqn:Hin.
  2:{ destruct (watch_inputs_Err _ _ _ _ _ _ _ Hin)
        as [(_ & p & _ & [? _]%Abs_None)|(? & ? & ? & _ & _ & ? & _)]; congruence. }
  destruct (watch_renames env up (Range env up) w1 _) as [w2 [st|msg2]] eqn:Hren.
  2:{ destruct (watch_renames_Err _ _ _ _ _ _ _ Hren) as (? & ? & _ & _ & ? & _).
      congruence. }
  by eexists.
Qed.

Lemma watch_succeeds_witness :
  ∃ userPaths,
    returned (watch {| Getwd := Some "/home/u"; TrimSpace := ascii_TrimSpace;
                       Sum256 := λ bs, bs; Open := λ _, Directory;
                       NewWatcherErr := None; AddErr := λ _ _, None;
                       Range := λ m, (map_to_list m).*1 |} ["a"; "/b"] ["c"])
    = Ok userPaths.
Proof. by apply (watch_succeeds _ ["a"; "/b"] ["c"] "/home/u"). Defined.

(** The first loop over a list in two parts. *)
Lemma watch_inputs_app (env : Env) (u : userIgnorer) (a b : list string)
    (w : watcher) (userPaths : pathmap) :
  watch_inputs env u (a ++ b) w userPaths
  = match watch_inputs env u a w userPaths with
    | (w1, Ok userPaths1) => watch_inputs env u b w1 userPaths1
    | (w1, Err msg) => (w1, Err msg)
    end.
Proof.
  revert w userPaths. induction a as [|path a IH]; intros w userPaths; simpl; [done|].
  destruct (filepath.Abs (Getwd env) path) as [fullPath|]; [|done].
  destruct (found userPaths fullPath || IsIgnored u path); [apply IH|].
  destruct (Add env w fullPath) as [w1 [err|]]; [done|apply IH].
Qed.

(** After a successful first loop every input path is resolved, and is
    a key of the map unless the user ignorer flags it. *)
Lemma watch_inputs_seen (env : Env) (u : userIgnorer) (inputPaths : list string)
    (w w' : watcher) (userPaths userPaths' : pathmap) (path : string) :
  watch_inputs env u inputPaths w userPaths = (w', Ok userPaths') →
  path ∈ inputPaths →
  ∃ fullPath, filepath.Abs (Getwd env) path = Some fullPath
              ∧ found userPaths' fullPath || userIgnorer_IsIgnored env u path = true.
Proof.
  intros Hrun Hin.
  assert (∃ fullPath, filepath.Abs (Getwd env) path = Some fullPath) as [fullPath Habs].
  { revert w userPaths Hrun. induction inputPaths as [|x rest IH]; intros w userPaths;
      [by apply elem_of_nil in Hin|]. simpl.
    destruct (filepath.Abs (Getwd env) x) as [fx|] eqn:Hx; [|done].
    apply elem_of_cons in Hin as [->|Hin]; [by eexists|].
    destruct (found userPaths fx || IsIgnored u x); [by apply IH|].
    destruct (Add env w fx) as [w1 [err|]]; [done|by apply IH]. }
  exists fullPath. split; [done|].
  destruct (userIgnorer_IsIgnored env u path) eqn:Hflag; [by rewrite orb_true_r|].
  rewrite orb_false_r. apply found_true.
  destruct (userPaths !! fullPath) as [d|] eqn:Hlook.
  - exists d. apply (watch_inputs_map _ _ _ _ _ _ _ Hrun). by left.
  - exists (digest env fullPath).1. apply (watch_inputs_map _ _ _ _ _ _ _ Hrun).
    right. split_and!; [done..|]. by exists path.
Qed.

(** X14. An input path that resolves to the same absolute path as an
    earlier one changes nothing: [watch] returns the same, and leaves
    the same watcher and the same dispatch task, with or without the
    later path. *)
Theorem watch_repeated_input (env : Env) (before after ignoredPaths : list string)
    (earlier path : string) :
  earlier ∈ before →
  filepath.Abs (Getwd env) path = filepath.Abs (Getwd env) earlier →
  watch env (before ++ path :: after) ignoredPaths
  = watch env (before ++ after) ignoredPaths.
Proof.
  intros Hin Hsame. unfold watch.
  destruct (createUserIgnorer env ignoredPaths) as [u|msg0]; [|done].
  destruct (NewWatcherErr env); [done|].
  rewrite !watch_inputs_app.
  destruct (watch_inputs env u before newWatcher ∅) as [w1 [up1|msg1]] eqn:Hrun;
    [|done].
  destruct (watch_inputs_seen _ _ _ _ _ _ _ _ Hrun Hin) as (fullPath & Habs & Hskip).
  cbn [watch_inputs]. rewrite Hsame, Habs.
  unfold IsIgnored at 1, userIgnorer_Ignorer at 1.
  rewrite (userIgnorer_IsIgnored_resolved env u path earlier Hsame). by rewrite Hskip.
Qed.

Lemma watch_repeated_input_witness :
  watch example_env (["/tmp/proj/file.txt"] ++ "/tmp/proj/./file.txt" :: ["/tmp/proj"]) []
  = watch example_env (["/tmp/proj/file.txt"] ++ ["/tmp/proj"]) [].
Proof.
  apply (watch_repeated_input example_env _ _ _ "/tmp/proj/file.txt").
  - by left.
  - reflexivity.
Defined.

(** ** [listenForEvents] *)

Lemma listenForEvents_app `{Ignorer T} (verbose : bool) (ignorer : T)
    (a b : list round) :
  existsb stops a = false →
  listenForEvents verbose ignorer (a ++ b)
  = ((listenForEvents verbose ignorer a).1 ++ (listenForEvents verbose ignorer b).1,
     (listenForEvents verbose ignorer b).2).
Proof.
  induction a as [|r a IH]; simpl.
  - intros _. by destruct (listenForEvents verbose ignorer b).
  - intros [Hr Ha]%orb_false_iff. pose proof (round_status verbose ignorer r) as Hst.
    destruct (listenForEvents_round verbose ignorer r) as [acts st].
    simpl in Hst. rewrite Hr in Hst. subst st. rewrite (IH Ha).
    destruct (listenForEvents verbose ignorer a) as [acts1 st1].
    destruct (listenForEvents verbose ignorer b) as [acts2 st2].
    simpl. by rewrite app_assoc.
Qed.

(** X15. The loop consumes nothing after the round in which it returns:
    a run on a list of rounds is the run on the rounds up to the first
    that closes a channel or brings a nil error.  And rounds before
    which nothing stops the loop only put their actions in front. *)
Theorem listenForEvents_stops_consuming `{Ignorer T} (verbose : bool) (ignorer : T)
    (rounds : list round) :
  listenForEvents verbose ignorer rounds
  = listenForEvents verbose ignorer (processed rounds)
  ∧ ∀ more, existsb stops rounds = false →
      listenForEvents verbose ignorer (rounds ++ more)
      = ((listenForEvents verbose ignorer rounds).1
           ++ (listenForEvents verbose ignorer more).1,
         (listenForEvents verbose ignorer more).2).
Proof.
  split; [|intros more Hno; by apply listenForEvents_app].
  induction rounds as [|r rest IH]; [done|]. cbn [processed].
  pose proof (round_status verbose ignorer r) as Hst.
  destruct (stops r) eqn:Hr; cbn [listenForEvents];
    destruct (listenForEvents_round verbose ignorer r) as [acts st];
    simpl in Hst; subst st; [done|].
  by rewrite IH.
Qed.

Lemma closes_app (a b : list action) : closes (a ++ b) = closes a ++ closes b.
Proof. apply List.filter_app. Qed.

(** X16. The loop closes the output channel at most once; and it closes
    it exactly when the first round that ends the loop comes from the
    errors channel (the channel closed, or a nil error), not from the
    events channel. *)
Theorem close_once_on_errors_side `{Ignorer T} (verbose : bool) (ignorer : T)
    (rounds : list round) :
  (length (closes (listenForEvents verbose ignorer rounds).1) ≤ 1)%nat
  ∧ (CloseCmdCh ∈ (listenForEvents verbose ignorer rounds).1
     ↔ ∃ r, List.find stops rounds = Some r ∧ recv r ≠ EventsClosed).
Proof.
  induction rounds as [|r rest [IHlen IHiff]]; cbn [listenForEvents List.find].
  { split; [simpl; lia|]. split; [by intros ?%elem_of_nil|by intros (? & ? & _)]. }
  unfold listenForEvents_round, stops.
  destruct (recv r) as [ev| |[err|]|] eqn:Hrecv; simpl.
  - destruct (listenForEvents verbose ignorer rest) as [acts st]. simpl in *.
    destruct (IsIgnored ignorer (Name ev)); simpl; [done|].
    rewrite closes_app, length_app, elem_of_app, <-IHiff.
    destruct verbose; simpl; (split; [lia|]).
    + rewrite !elem_of_cons, elem_of_nil.
      split; [intros [[?|[?|?]]|?]; done|by right].
    + rewrite !elem_of_cons, elem_of_nil.
      split; [intros [[?|?]|?]; done|by right].
  - split; [lia|]. split; [by intros ?%elem_of_nil|].
    intros (? & [= <-] & ?). done.
  - destruct (listenForEvents verbose ignorer rest) as [acts st]. simpl in *.
    split; [done|]. rewrite elem_of_cons, <-IHiff.
    split; [intros [?|?]; done|by right].
  - split; [lia|]. split; [|by left]. intros _. exists r. split; [done|congruence].
  - split; [lia|]. split; [|by left]. intros _. exists r. split; [done|congruence].
Qed.

(** X17. The loop logs the non-nil errors it receives, each once and in
    the order received, and goes on; with either value of the verbose
    flag. *)
Theorem errors_logged_in_order `{Ignorer T} (verbose : bool) (ignorer : T)
    (rounds : list round) :
  error_logs (listenForEvents verbose ignorer rounds).1
  = received_errors (processed rounds).
Proof.
  induction rounds as [|r rest IH]; [done|].
  cbn [listenForEvents processed]. unfold listenForEvents_round, stops.
  unfold error_logs, received_errors in *.
  destruct (recv r) as [ev| |[err|]|] eqn:Hrecv; simpl; rewrite ?Hrecv; try done.
  - destruct (listenForEvents verbose ignorer rest) as [acts st]. simpl in *.
    destruct (IsIgnored ignorer (Name ev)); simpl; [done|].
    rewrite omap_app, IH. by destruct verbose.
  - destruct (listenForEvents verbose ignorer rest) as [acts st]. simpl in *.
    f_equal. exact IH.
Qed.

(** X18. With the verbose flag the loop logs exactly the events it
    sends, in the order it sends them; without the flag it logs no
    event. *)
Theorem unignored_logged_iff_verbose `{Ignorer T} (verbose : bool) (ignorer : T)
    (rounds : list round) :
  unignored_logs (listenForEvents verbose ignorer rounds).1
  = if verbose then Event <$> sent (listenForEvents verbose ignorer rounds).1 else [].
Proof.
  induction rounds as [|r rest IH]; [by destruct verbose|].
  cbn [listenForEvents]. unfold listenForEvents_round.
  unfold unignored_logs, sent in *.
  destruct (recv r) as [ev| |[err|]|]; simpl; try (by destruct verbose).
  - destruct (listenForEvents verbose ignorer rest) as [acts st]. simpl in *.
    destruct (IsIgnored ignorer (Name ev)); simpl; [done|].
    rewrite !omap_app, IH. by destruct verbose.
  - by destruct (listenForEvents verbose ignorer rest) as [acts st].
Qed.

Lemma forwarded_times `{Ignorer T} (ignorer : T) (rounds : list round) (t : Z) :
  t ∈ Time <$> flat_map (forwarded ignorer) (processed rounds) → t ∈ now <$> rounds.
Proof.
  induction rounds as [|r rest IH]; [done|]. cbn [processed].
  assert (t ∈ Time <$> forwarded ignorer r → t = now r) as Hr.
  { unfold forwarded. destruct (recv r) as [ev| | |]; try by intros ?%elem_of_nil.
    destruct (IsIgnored ignorer (Name ev)); [by intros ?%elem_of_nil|].
    by intros ->%list_elem_of_singleton. }
  rewrite fmap_cons, elem_of_cons. destruct (stops r); simpl.
  - rewrite app_nil_r. intros ?. left. by apply Hr.
  - rewrite fmap_app, elem_of_app. intros [?|?]; [left; by apply Hr|right; by apply IH].
Qed.

(** X19. When the clock does not go back from one round to the next, the
    items on the output channel carry times that do not go back either:
    the order of delivery agrees with the order of the time stamps. *)
Theorem sent_times_monotone `{Ignorer T} (verbose : bool) (ignorer : T)
    (rounds : list round) :
  StronglySorted Z.le (now <$> rounds) →
  StronglySorted Z.le (Time <$> sent (listenForEvents verbose ignorer rounds).1).
Proof.
  rewrite listenForEvents_sent.
  induction rounds as [|r rest IH]; [constructor|].
  rewrite fmap_cons. intros [Hall Hrest]%StronglySorted_cons. cbn [processed].
  assert (StronglySorted Z.le
            (Time <$> forwarded ignorer r
                      ++ flat_map (forwarded ignorer) (processed rest))) as Hgo.
  { rewrite fmap_app. unfold forwarded at 1.
    destruct (recv r) as [ev| | |]; try by apply IH.
    destruct (IsIgnored ignorer (Name ev)); [by apply IH|].
    simpl. constructor; [by apply IH|].
    rewrite Forall_forall in Hall. apply Forall_forall. intros t Ht.
    apply Hall. by eapply forwarded_times. }
  destruct (stops r); [|done]. simpl. rewrite app_nil_r.
  rewrite fmap_app in Hgo. by apply StronglySorted_app_1_l in Hgo.
Qed.

Lemma sent_times_monotone_witness :
  StronglySorted Z.le
    (Time <$> sent (listenForEvents true (λ s : string, bool_decide (s = "/x"))
                      [{| recv := EventsRecv {| Name := "/y"; Op := 2 |}; now := 5 |};
                       {| recv := EventsRecv {| Name := "/x"; Op := 2 |}; now := 6 |};
                       {| recv := EventsRecv {| Name := "/z"; Op := 1 |}; now := 6 |}]).1).
Proof.
  apply sent_times_monotone. simpl.
  repeat (constructor; [|by repeat (constructor; [lia|])]). constructor.
Defined.

(** ** [watch]: order of registration, and inputs that are all skipped *)




Lemma watch_inputs_all_skipped (env : Env) (u : userIgnorer) (inputPaths : list string)
    (w : watcher) (userPaths : pathmap) :
  (∀ path, path ∈ inputPaths →
     ∃ fullPath, filepath.Abs (Getwd env) path = Some fullPath
                 ∧ userIgnorer_IsIgnored env u path = true) →
  watch_inputs env u inputPaths w userPaths = (w, Ok userPaths).
Proof.
  induction inputPaths as [|path rest IH]; intros Hall; simpl; [done|].
  destruct (Hall path) as (fullPath & -> & Hflag); [by left|].
  unfold IsIgnored, userIgnorer_Ignorer. rewrite Hflag, orb_true_r.
  apply IH. intros x Hx. apply Hall. by right.
Qed.

(** X21. When there is no input path, or the user ignorer flags every
    input path, [watch] succeeds with an empty map, registers nothing,
    and starts the dispatch task with three empty sets. *)
Theorem watch_nothing_to_watch (env : Env) (inputPaths ignoredPaths : list string)
    (u : userIgnorer) :
  range_ok env →
  createUserIgnorer env ignoredPaths = Ok u →
  NewWatcherErr env = None →
  (∀ path, path ∈ inputPaths →
     ∃ fullPath, filepath.Abs (Getwd env) path = Some fullPath
                 ∧ IsIgnored (Ignorer := userIgnorer_Ignorer env) u path = true) →
  watch env inputPaths ignoredPaths
  = {| returned := Ok ∅;
       watcher_state := Some newWatcher;
       dispatch_task :=
         Some {| includedHiddenFiles := ∅; ui := u; renameDirs := ∅;
                 renameChildren := ∅ |} |}.
Proof.
  intros Hrange Hu Hnew Hall. unfold watch. rewrite Hu, Hnew.
  rewrite (watch_inputs_all_skipped _ _ _ _ _ Hall).
  assert (Range env ∅ = []) as ->; [|done].
  apply Permutation_nil_r. rewrite (Hrange ∅), map_to_list_empty. done.
Qed.

Lemma watch_nothing_to_watch_witness :
  watch example_env ["/tmp/proj/secret/data.bin"] ["/tmp/proj/secret"]
  = {| returned := Ok ∅;
       watcher_state := Some newWatcher;
       dispatch_task :=
         Some {| includedHiddenFiles := ∅;
                 ui := {| ignored := {["/tmp/proj/secret" := true]};
                          ignoredDirs := ["/tmp/proj/secret/"] |};
                 renameDirs := ∅; renameChildren := ∅ |} |}.
Proof.
  apply (watch_nothing_to_watch example_env).
  - apply example_env_range_ok.
  - vm_compute. reflexivity.
  - reflexivity.
  - intros path ->%list_elem_of_singleton. eexists. split; reflexivity.
Defined.
